(** * Design-pattern catalogue: the snippets, embedded and checked

  Every pattern page of the catalogue carries its own small program.
  Each program is embedded below in a module of its own, named after
  the pattern, with the classes, fields and methods keeping the names
  they have in the page.

  Conventions shared by all modules:
  - an object reference is a natural number, an index into an object
    store ([list] of objects); [new] appends to the store and returns
    the old length, so a reference is fresh exactly when it is the
    length of the store;
  - [System.out.println] and [console.log] append one line to a
    console, a [list string];
  - a Java [int] is a [Z] kept in range by [wrap32];
  - a field or an argument of reference type that no snippet ever sets
    to [null] is a reference or a value, not an option; the fields the
    snippets do leave or test as [null] are options. *)

From stdpp Require Import base numbers list strings gmap.

(** ** Object store *)

Abbreviation ref := nat (only parsing).

(** [new C(...)]: the object is appended, its index is the reference. *)
Definition alloc {A : Type} (h : list A) (o : A) : list A * ref :=
  (h ++ [o], length h).

(** ** Java [int] *)

Definition wrap32 (z : Z) : Z := ((z + 2147483648) `mod` 4294967296 - 2147483648)%Z.

(** ** Decorator (TypeScript): [Window], [SimpleWindow], [WindowDecorator],
  [BorderedWindowDecorator] *)

Module Decorator.

(** The classes that implement [Window].  A decorator stores the window
    it wraps in its [window] field, set once by the constructor. *)
Inductive Window : Type :=
| SimpleWindow
| WindowDecorator (window : Window)
| BorderedWindowDecorator (window : Window).

Definition drawBorder (console : list string) : list string :=
  console ++ ["Drawing a border around the window"].

(** [draw()], by class.  [BorderedWindowDecorator.draw] runs
    [super.draw()], which is [WindowDecorator.draw], that is
    [this.window.draw()], and then [this.drawBorder()]. *)
Fixpoint draw (w : Window) (console : list string) : list string :=
  match w with
  | SimpleWindow => console ++ ["Drawing a simple window"]
  | WindowDecorator window => draw window console
  | BorderedWindowDecorator window => drawBorder (draw window console)
  end.

(** What a window prints, on its own. *)
Definition output (w : Window) : list string := draw w [].

(** The client program of the page. *)
Definition Client : list string :=
  let simpleWindow := SimpleWindow in
  let decoratedWindow := BorderedWindowDecorator simpleWindow in
  let c := [] ++ ["Simple Window:"] in
  let c := draw simpleWindow c in
  let c := c ++ ["
Decorated Window:"] in
  draw decoratedWindow c.

(** How many [BorderedWindowDecorator] layers a window has. *)
Fixpoint borders (w : Window) : nat :=
  match w with
  | SimpleWindow => 0
  | WindowDecorator window => borders window
  | BorderedWindowDecorator window => S (borders window)
  end.

End Decorator.

(** ** Iterator (Java): [PlaylistIterator], [Playlist] *)

Module Iterator.

Record PlaylistIterator : Type := mkIt {
  songs : list string;
  position : Z
}.

Inductive exn : Type :=
| IllegalStateException (message : string)
| ArrayIndexOutOfBoundsException.

Inductive result (A : Type) : Type :=
| Ok (a : A)
| Raise (e : exn).
Arguments Ok {A} a.
Arguments Raise {A} e.

(** [new PlaylistIterator(songs)] *)
Definition new_PlaylistIterator (songs : list string) : PlaylistIterator :=
  {| songs := songs; position := 0 |}.

Definition hasNext (it : PlaylistIterator) : bool :=
  bool_decide (position it < Z.of_nat (length (songs it)))%Z.

(** [songs[i]] of Java: an index outside the array raises. *)
Definition array_get (a : list string) (i : Z) : result string :=
  if bool_decide (0 ≤ i)%Z then
    match a !! Z.to_nat i with
    | Some s => Ok s
    | None => Raise ArrayIndexOutOfBoundsException
    end
  else Raise ArrayIndexOutOfBoundsException.

(** [next()]: the value returned (or the exception) and the iterator
    afterwards.  [songs[position++]] reads the element at the old
    position and stores the incremented one. *)
Definition next (it : PlaylistIterator) : result string * PlaylistIterator :=
  if negb (hasNext it) then
    (Raise (IllegalStateException "No more songs in the playlist."), it)
  else
    match array_get (songs it) (position it) with
    | Ok s => (Ok s, {| songs := songs it; position := wrap32 (position it + 1) |})
    | Raise e => (Raise e, it)
    end.

Record Playlist : Type := mkPlaylist { playlist_songs : list string }.

Definition createIterator (p : Playlist) : PlaylistIterator :=
  new_PlaylistIterator (playlist_songs p).

(** The operations of the snippet, under one result type, so that
    "which operation can raise" is a statement about [run]. *)
Inductive op : Type := OpHasNext | OpNext.

Inductive value : Type := VBool (b : bool) | VString (s : string).

Definition run (o : op) (it : PlaylistIterator) : result value * PlaylistIterator :=
  match o with
  | OpHasNext => (Ok (VBool (hasNext it)), it)
  | OpNext =>
      match next it with
      | (Ok s, it') => (Ok (VString s), it')
      | (Raise e, it') => (Raise e, it')
      end
  end.

Definition raises {A} (r : result A) : bool :=
  match r with Ok _ => false | Raise _ => true end.

(** The states an iterator can be in: the position is private, starts
    at [0] and only [next] moves it; a Java array has at most
    [2^31 - 1] elements. *)
Definition wf (it : PlaylistIterator) : Prop :=
  (0 ≤ position it ≤ Z.of_nat (length (songs it)))%Z ∧
  (Z.of_nat (length (songs it)) < 2147483648)%Z.

(** How a run of the client ends: normally, with the console and the
    iterator it leaves; by an exception that nobody catches; or not
    within the fuel given. *)
Inductive outcome : Type :=
| Done (console : list string) (it : PlaylistIterator)
| Uncaught (e : exn) (console : list string)
| OutOfFuel.

(** The loop of [Client.main]:
    [while (iterator.hasNext()) println("Now playing: " + iterator.next())]. *)
Fixpoint main_loop (fuel : nat) (it : PlaylistIterator) (console : list string)
  : outcome :=
  match fuel with
  | O => OutOfFuel
  | S fuel =>
      if hasNext it then
        match next it with
        | (Ok s, it') => main_loop fuel it' (console ++ ["Now playing: " +:+ s])
        | (Raise e, _) => Uncaught e console
        end
      else Done console it
  end.

End Iterator.

(** ** Singleton (Java): [Logger] *)

Module Singleton.

(** A [Logger] has no field. *)
Inductive Logger : Type := mkLogger.

(** The static field [Logger.instance] ([None] is [null]), the [Logger]
    objects allocated so far, and the console. *)
Record world : Type := mkWorld {
  instance : option ref;
  heap : list Logger;
  console : list string
}.

(** The private constructor: allocates, then prints. *)
Definition new_Logger (w : world) : ref * world :=
  let '(h, r) := alloc (heap w) mkLogger in
  (r, {| instance := instance w; heap := h;
         console := console w ++ ["Logger initialized."] |}).

(** [getInstance()].  In a single thread the [synchronized] block is
    entered and left at once, so the inner test sees what the outer one
    saw. *)
Definition getInstance (w : world) : option ref * world :=
  let w1 :=
    match instance w with
    | None =>
        match instance w with
        | None =>
            let '(r, w') := new_Logger w in
            {| instance := Some r; heap := heap w'; console := console w' |}
        | Some _ => w
        end
    | Some _ => w
    end in
  (instance w1, w1).

Definition log (message : string) (w : world) : world :=
  {| instance := instance w; heap := heap w;
     console := console w ++ ["Log: " +:+ message] |}.

(** [n] calls of [getInstance()] in a row: the references returned, in
    call order, and the world afterwards. *)
Fixpoint calls (n : nat) (w : world) : list (option ref) * world :=
  match n with
  | O => ([], w)
  | S n =>
      let '(r, w1) := getInstance w in
      let '(rs, w2) := calls n w1 in
      (r :: rs, w2)
  end.

End Singleton.

(** ** Prototype (Java): [Circle], [Rectangle] *)

Module Prototype.

(** The two classes that implement [Prototype], with their fields. *)
Inductive obj : Type :=
| Circle (radius : Z) (color : string)
| Rectangle (width height : Z) (color : string).

(** Constructors. *)
Definition new_Circle (h : list obj) (radius : Z) (color : string) : list obj * ref :=
  alloc h (Circle radius color).

Definition new_Rectangle (h : list obj) (width height : Z) (color : string)
  : list obj * ref :=
  alloc h (Rectangle width height color).

(** Methods: [None] stands for a call the Java type checker refuses (the
    receiver is not an object of the class). *)
Definition Circle_setRadius (h : list obj) (this : ref) (radius : Z) : option (list obj) :=
  match h !! this with
  | Some (Circle _ c) => Some (<[this := Circle radius c]> h)
  | _ => None
  end.

Definition Circle_setColor (h : list obj) (this : ref) (color : string) : option (list obj) :=
  match h !! this with
  | Some (Circle r _) => Some (<[this := Circle r color]> h)
  | _ => None
  end.

Definition Circle_clone (h : list obj) (this : ref) : option (list obj * ref) :=
  match h !! this with
  | Some (Circle r c) => Some (new_Circle h r c)
  | _ => None
  end.

Definition Rectangle_setWidth (h : list obj) (this : ref) (width : Z) : option (list obj) :=
  match h !! this with
  | Some (Rectangle _ ht c) => Some (<[this := Rectangle width ht c]> h)
  | _ => None
  end.

Definition Rectangle_setHeight (h : list obj) (this : ref) (height : Z) : option (list obj) :=
  match h !! this with
  | Some (Rectangle w _ c) => Some (<[this := Rectangle w height c]> h)
  | _ => None
  end.

Definition Rectangle_setColor (h : list obj) (this : ref) (color : string) : option (list obj) :=
  match h !! this with
  | Some (Rectangle w ht _) => Some (<[this := Rectangle w ht color]> h)
  | _ => None
  end.

Definition Rectangle_clone (h : list obj) (this : ref) : option (list obj * ref) :=
  match h !! this with
  | Some (Rectangle w ht c) => Some (new_Rectangle h w ht c)
  | _ => None
  end.

(** [Prototype.clone()], dispatched on the class of the receiver. *)
Definition clone (h : list obj) (this : ref) : option (list obj * ref) :=
  match h !! this with
  | Some (Circle _ _) => Circle_clone h this
  | Some (Rectangle _ _ _) => Rectangle_clone h this
  | None => None
  end.

(** The setters, as one type of mutation. *)
Inductive setter : Type :=
| setRadius (radius : Z)
| setWidth (width : Z)
| setHeight (height : Z)
| setColor (color : string).

Definition call (h : list obj) (this : ref) (m : setter) : option (list obj) :=
  match h !! this, m with
  | Some (Circle _ _), setRadius r => Circle_setRadius h this r
  | Some (Circle _ _), setColor c => Circle_setColor h this c
  | Some (Rectangle _ _ _), setWidth w => Rectangle_setWidth h this w
  | Some (Rectangle _ _ _), setHeight ht => Rectangle_setHeight h this ht
  | Some (Rectangle _ _ _), setColor c => Rectangle_setColor h this c
  | _, _ => None
  end.

(** The setters a class declares. *)
Definition declares (o : obj) (m : setter) : bool :=
  match o, m with
  | Circle _ _, setRadius _ => true
  | Circle _ _, setColor _ => true
  | Rectangle _ _ _, setWidth _ => true
  | Rectangle _ _ _, setHeight _ => true
  | Rectangle _ _ _, setColor _ => true
  | _, _ => false
  end.

(** Any number of setter calls on one object. *)
Fixpoint calls (h : list obj) (this : ref) (ms : list setter) : option (list obj) :=
  match ms with
  | [] => Some h
  | m :: ms =>
      match call h this m with
      | Some h' => calls h' this ms
      | None => None
      end
  end.

End Prototype.

(** ** Builder (Java): [House], [WoodenHouseBuilder], [BrickHouseBuilder],
    [ConstructionDirector] *)

Module Builder.

(** The objects of the snippet.  A [String] field that was never set is
    [null], here [None].  A builder holds a reference to its house, a
    director a reference to its builder. *)
Inductive obj : Type :=
| House (foundation structure roof interior : option string)
| WoodenHouseBuilder (house : ref)
| BrickHouseBuilder (house : ref)
| ConstructionDirector (builder : ref).

(** The methods of the [HouseBuilder] interface that build a part. *)
Inductive method : Type :=
| buildFoundation
| buildStructure
| buildRoof
| buildInterior.

(** The store, and the log of the builder methods invoked so far
    (receiver and method), kept to state the order of invocation. *)
Record world : Type := mkWorld {
  heap : list obj;
  invoked : list (ref * method)
}.

(** Setters of [House]. *)
Definition setFoundation (h : list obj) (this : ref) (s : string) : option (list obj) :=
  match h !! this with
  | Some (House _ st r i) => Some (<[this := House (Some s) st r i]> h)
  | _ => None
  end.

Definition setStructure (h : list obj) (this : ref) (s : string) : option (list obj) :=
  match h !! this with
  | Some (House f _ r i) => Some (<[this := House f (Some s) r i]> h)
  | _ => None
  end.

Definition setRoof (h : list obj) (this : ref) (s : string) : option (list obj) :=
  match h !! this with
  | Some (House f st _ i) => Some (<[this := House f st (Some s) i]> h)
  | _ => None
  end.

Definition setInterior (h : list obj) (this : ref) (s : string) : option (list obj) :=
  match h !! this with
  | Some (House f st r _) => Some (<[this := House f st r (Some s)]> h)
  | _ => None
  end.

(** The body of a builder method: which setter, with which material. *)
Definition WoodenHouseBuilder_body (m : method) (h : list obj) (house : ref)
  : option (list obj) :=
  match m with
  | buildFoundation => setFoundation h house "Wooden Piles"
  | buildStructure => setStructure h house "Wood and Bamboo"
  | buildRoof => setRoof h house "Wooden Shingles"
  | buildInterior => setInterior h house "Wooden Panels"
  end.

Definition BrickHouseBuilder_body (m : method) (h : list obj) (house : ref)
  : option (list obj) :=
  match m with
  | buildFoundation => setFoundation h house "Concrete and Steel"
  | buildStructure => setStructure h house "Brick and Mortar"
  | buildRoof => setRoof h house "Concrete Slabs"
  | buildInterior => setInterior h house "Plastered Walls"
  end.

(** [builder.m()], an interface call: logged, then dispatched on the
    class of the receiver.  [None] is a call on something that is not a
    builder, or a builder whose house is not a [House]. *)
Definition invoke (this : ref) (m : method) (w : world) : option world :=
  let log := invoked w ++ [(this, m)] in
  match heap w !! this with
  | Some (WoodenHouseBuilder house) =>
      h ← WoodenHouseBuilder_body m (heap w) house;
      Some {| heap := h; invoked := log |}
  | Some (BrickHouseBuilder house) =>
      h ← BrickHouseBuilder_body m (heap w) house;
      Some {| heap := h; invoked := log |}
  | _ => None
  end.

(** [getHouse()] returns the reference held in the [house] field. *)
Definition getHouse (this : ref) (w : world) : option ref :=
  match heap w !! this with
  | Some (WoodenHouseBuilder house) => Some house
  | Some (BrickHouseBuilder house) => Some house
  | _ => None
  end.

(** Constructors. *)
Definition new_House (w : world) : ref * world :=
  let '(h, r) := alloc (heap w) (House None None None None) in
  (r, {| heap := h; invoked := invoked w |}).

Definition new_WoodenHouseBuilder (w : world) : ref * world :=
  let '(house, w) := new_House w in
  let '(h, r) := alloc (heap w) (WoodenHouseBuilder house) in
  (r, {| heap := h; invoked := invoked w |}).

Definition new_BrickHouseBuilder (w : world) : ref * world :=
  let '(house, w) := new_House w in
  let '(h, r) := alloc (heap w) (BrickHouseBuilder house) in
  (r, {| heap := h; invoked := invoked w |}).

Definition new_ConstructionDirector (builder : ref) (w : world) : ref * world :=
  let '(h, r) := alloc (heap w) (ConstructionDirector builder) in
  (r, {| heap := h; invoked := invoked w |}).

(** [ConstructionDirector.constructHouse()] *)
Definition constructHouse (this : ref) (w : world) : option world :=
  match heap w !! this with
  | Some (ConstructionDirector builder) =>
      w ← invoke builder buildFoundation w;
      w ← invoke builder buildStructure w;
      w ← invoke builder buildRoof w;
      invoke builder buildInterior w
  | _ => None
  end.

(** Java's conversion of a [String] reference in a concatenation: [null]
    reads "null". *)
Definition string_of (s : option string) : string := default "null" s.

(** [House.toString()] *)
Definition House_toString (h : list obj) (this : ref) : option string :=
  match h !! this with
  | Some (House foundation structure roof interior) =>
      Some ("House built with " +:+
            "foundation='" +:+ string_of foundation +:+ "'" +:+
            ", structure='" +:+ string_of structure +:+ "'" +:+
            ", roof='" +:+ string_of roof +:+ "'" +:+
            ", interior='" +:+ string_of interior +:+ "'")
  | _ => None
  end.

(** [BuilderPatternDemo.main]: a wooden house, then a brick house, each
    built by a director of its own and printed.  The variable [director]
    is assigned twice; the first director stays in the store. *)
Definition BuilderPatternDemo_main (w : world) (console : list string)
  : option (list string * world) :=
  let '(woodenBuilder, w) := new_WoodenHouseBuilder w in
  let '(director, w) := new_ConstructionDirector woodenBuilder w in
  w ← constructHouse director w;
  woodenHouse ← getHouse woodenBuilder w;
  s ← House_toString (heap w) woodenHouse;
  let console := console ++ ["Wooden House:
" +:+ s] in
  let '(brickBuilder, w) := new_BrickHouseBuilder w in
  let '(director, w) := new_ConstructionDirector brickBuilder w in
  w ← constructHouse director w;
  brickHouse ← getHouse brickBuilder w;
  s ← House_toString (heap w) brickHouse;
  Some (console ++ ["
Brick House:
" +:+ s], w).

(** A builder in a store: an object of one of the two builder classes
    whose [house] field refers to a [House]. *)
Definition is_house (h : list obj) (r : ref) : Prop :=
  ∃ f st ro i, h !! r = Some (House f st ro i).

Definition is_builder (h : list obj) (b : ref) : Prop :=
  ∃ house, (h !! b = Some (WoodenHouseBuilder house) ∨
            h !! b = Some (BrickHouseBuilder house)) ∧ is_house h house.

#[global] Instance method_eq_dec : EqDecision method.
Proof. solve_decision. Defined.

(** Build methods called one after the other on one builder, as
    [testWoodenHouseBuilder] does without a director. *)
Fixpoint invokes (this : ref) (ms : list method) (w : world) : option world :=
  match ms with
  | [] => Some w
  | m :: ms => w ← invoke this m w; invokes this ms w
  end.

(** The material each builder class puts in the field of a method
    ([brick]: the [BrickHouseBuilder], otherwise the [WoodenHouseBuilder]). *)
Definition material (brick : bool) (m : method) : string :=
  match brick, m with
  | true, buildFoundation => "Concrete and Steel"
  | true, buildStructure => "Brick and Mortar"
  | true, buildRoof => "Concrete Slabs"
  | true, buildInterior => "Plastered Walls"
  | false, buildFoundation => "Wooden Piles"
  | false, buildStructure => "Wood and Bamboo"
  | false, buildRoof => "Wooden Shingles"
  | false, buildInterior => "Wooden Panels"
  end.

(** A builder object of either class. *)
Definition builder_object (brick : bool) (house : ref) : obj :=
  if brick then BrickHouseBuilder house else WoodenHouseBuilder house.

End Builder.

(** ** Observer (Java): [Subject], [StockMarket], [Trader] *)

Module Observer.

(** The only class that implements [Observer]. *)
Inductive Trader : Type := mkTrader (name : string).

Section observer.
(** A Java [double], with [0.0] and its conversion to a [String]; prices
    are stored and passed on, never computed with. *)
Context {double : Type} (zero : double) (toString : double → string).

(** A [StockMarket] with the [observers] field it inherits from
    [Subject].  [Trader] inherits [equals] from [Object], so the
    [ArrayList] compares observers by reference. *)
Record StockMarket : Type := mkStockMarket {
  observers : list ref;
  stockPrices : gmap string double
}.

(** The [Trader] objects, the console, and the log of the [update]
    calls made so far (receiver and arguments). *)
Record world : Type := mkWorld {
  heap : list Trader;
  console : list string;
  updates : list (ref * string * double)
}.

Definition new_StockMarket : StockMarket :=
  {| observers := []; stockPrices := ∅ |}.

(** [ArrayList.add]: at the end. *)
Definition attach (observer : ref) (s : StockMarket) : StockMarket :=
  {| observers := observers s ++ [observer]; stockPrices := stockPrices s |}.

(** [ArrayList.remove(Object)]: the first element equal to the argument
    is removed, if there is one. *)
Fixpoint ArrayList_remove (o : ref) (l : list ref) : list ref :=
  match l with
  | [] => []
  | x :: l => if decide (x = o) then l else x :: ArrayList_remove o l
  end.

Definition detach (observer : ref) (s : StockMarket) : StockMarket :=
  {| observers := ArrayList_remove observer (observers s);
     stockPrices := stockPrices s |}.

Definition Trader_update (this : ref) (name : string)
    (stockName : string) (price : double) (w : world) : world :=
  {| heap := heap w;
     console := console w ++
       ["Trader " +:+ name +:+ " notified: " +:+ stockName +:+
        " price updated to " +:+ toString price];
     updates := updates w ++ [(this, stockName, price)] |}.

(** [observer.update(stockName, price)], an interface call. *)
Definition update (this : ref) (stockName : string) (price : double) (w : world)
  : option world :=
  match heap w !! this with
  | Some (mkTrader name) => Some (Trader_update this name stockName price w)
  | None => None
  end.

(** The [for] loop of [notifyObservers]. *)
Fixpoint for_each (os : list ref) (stockName : string) (price : double) (w : world)
  : option world :=
  match os with
  | [] => Some w
  | observer :: os =>
      w ← update observer stockName price w;
      for_each os stockName price w
  end.

Definition notifyObservers (s : StockMarket) (stockName : string) (price : double)
    (w : world) : option world :=
  for_each (observers s) stockName price w.

Definition setPrice (stockName : string) (price : double) (s : StockMarket) (w : world)
  : option (StockMarket * world) :=
  let s := {| observers := observers s;
              stockPrices := <[stockName := price]> (stockPrices s) |} in
  w ← notifyObservers s stockName price w;
  Some (s, w).

Definition getPrice (stockName : string) (s : StockMarket) : double :=
  default zero (stockPrices s !! stockName).

(** A history of [attach] and [detach] calls on a subject. *)
Inductive op : Type := Attach (o : ref) | Detach (o : ref).

Definition apply_op (s : StockMarket) (o : op) : StockMarket :=
  match o with
  | Attach r => attach r s
  | Detach r => detach r s
  end.

Definition history (ops : list op) : StockMarket :=
  foldl apply_op new_StockMarket ops.

(** How many [update] calls of a log have [o] as receiver. *)
Definition updates_on (o : ref) (log : list (ref * string * double)) : nat :=
  length (filter (λ u, u.1.1 = o) log).

(** Every observer of the subject is an object of the store. *)
Definition observers_alive (s : StockMarket) (w : world) : Prop :=
  ∀ o, o ∈ observers s → is_Some (heap w !! o).

End observer.
End Observer.

(** ** Chain of responsibility (Java): [Handler] and its three subclasses *)

Module ChainOfResponsibility.

Inductive class : Type := AutomatedHandler | AgentHandler | SupervisorHandler.

(** A handler object: its class and the [next] field ([None] is [null]). *)
Record Handler : Type := mkHandler {
  cls : class;
  next : option ref
}.

(** The store, the console, and the log of the [handleRequest] calls
    made so far (receiver and argument). *)
Record world : Type := mkWorld {
  heap : list Handler;
  console : list string;
  handled : list (ref * string)
}.

Definition println (line : string) (w : world) : world :=
  {| heap := heap w; console := console w ++ [line]; handled := handled w |}.

Definition new_Handler (c : class) (w : world) : ref * world :=
  let '(h, r) := alloc (heap w) {| cls := c; next := None |} in
  (r, {| heap := h; console := console w; handled := handled w |}).

Definition setNext (this : ref) (n : ref) (w : world) : option world :=
  o ← heap w !! this;
  Some {| heap := <[this := {| cls := cls o; next := Some n |}]> (heap w);
          console := console w; handled := handled w |}.

(** [handleRequest(request)]; the recursion follows the [next] fields,
    which may form a cycle, hence the fuel.  [None]: out of fuel, or a
    reference to nothing. *)
Fixpoint handleRequest (fuel : nat) (this : ref) (request : string) (w : world)
  : option world :=
  match fuel with
  | O => None
  | S fuel =>
      o ← heap w !! this;
      let w := {| heap := heap w; console := console w;
                  handled := handled w ++ [(this, request)] |} in
      match cls o with
      | AutomatedHandler =>
          if decide (request = "basic") then
            Some (println "AutomatedHandler: Resolving basic request." w)
          else match next o with
               | Some n => handleRequest fuel n request w
               | None => Some (println "AutomatedHandler: Unable to process the request." w)
               end
      | AgentHandler =>
          if decide (request = "intermediate") then
            Some (println "AgentHandler: Resolving intermediate request." w)
          else match next o with
               | Some n => handleRequest fuel n request w
               | None => Some (println "AgentHandler: Unable to process the request." w)
               end
      | SupervisorHandler =>
          if decide (request = "complex") then
            Some (println "SupervisorHandler: Resolving complex request." w)
          else match next o with
               | Some n => handleRequest fuel n request w
               | None => Some (println "SupervisorHandler: Unable to process the request." w)
               end
      end
  end.

(** The chain that [Client.main] sets up, in a store [w]: the three
    handlers and the store in which they are linked. *)
Definition Client_chain (w : world) : option (ref * ref * ref * world) :=
  let '(automatedHandler, w) := new_Handler AutomatedHandler w in
  let '(agentHandler, w) := new_Handler AgentHandler w in
  let '(supervisorHandler, w) := new_Handler SupervisorHandler w in
  w ← setNext automatedHandler agentHandler w;
  w ← setNext agentHandler supervisorHandler w;
  Some (automatedHandler, agentHandler, supervisorHandler, w).

(** The one line a request ends with in that chain. *)
Definition answer (request : string) : string :=
  if decide (request = "basic") then "AutomatedHandler: Resolving basic request."
  else if decide (request = "intermediate") then "AgentHandler: Resolving intermediate request."
  else if decide (request = "complex") then "SupervisorHandler: Resolving complex request."
  else "SupervisorHandler: Unable to process the request.".

(** The handlers a request goes through in that chain, in order. *)
Definition route (a b c : ref) (request : string) : list ref :=
  if decide (request = "basic") then [a]
  else if decide (request = "intermediate") then [a; b]
  else [a; b; c].

(** The keyword and the two lines of each handler class. *)
Definition keyword (c : class) : string :=
  match c with
  | AutomatedHandler => "basic"
  | AgentHandler => "intermediate"
  | SupervisorHandler => "complex"
  end.

Definition resolving (c : class) : string :=
  match c with
  | AutomatedHandler => "AutomatedHandler: Resolving basic request."
  | AgentHandler => "AgentHandler: Resolving intermediate request."
  | SupervisorHandler => "SupervisorHandler: Resolving complex request."
  end.

Definition unable (c : class) : string :=
  match c with
  | AutomatedHandler => "AutomatedHandler: Unable to process the request."
  | AgentHandler => "AgentHandler: Unable to process the request."
  | SupervisorHandler => "SupervisorHandler: Unable to process the request."
  end.

(** A chain laid out in a store: the handlers met from the first one by
    following [next], each with its class, the last one with [next]
    [null]. *)
Fixpoint linked (h : list Handler) (chain : list (ref * class)) : Prop :=
  match chain with
  | [] => True
  | (r, c) :: rest =>
      h !! r = Some {| cls := c; next := fst <$> head rest |} ∧ linked h rest
  end.

(** Where a request stops in a chain: the handlers it goes through and
    the line printed by the last of them. *)
Fixpoint stops (chain : list (ref * class)) (request : string)
  : list ref * list string :=
  match chain with
  | [] => ([], [])
  | (r, c) :: rest =>
      if decide (request = keyword c) then ([r], [resolving c])
      else match rest with
           | [] => ([r], [unable c])
           | _ :: _ => let '(rs, line) := stops rest request in (r :: rs, line)
           end
  end.

End ChainOfResponsibility.

(** ** Flyweight (Java): [Character], [FlyweightFactory] *)

Module Flyweight.

(** A [Character]: a [char] (its UTF-16 code unit), an [int] and a
    [String]. *)
Record Character : Type := mkCharacter {
  value : Z;
  size : Z;
  font : string
}.

(** The [Character] objects allocated so far, and the [flyweights] map of
    the factory.  [Character] declares neither [equals] nor [hashCode]:
    it inherits those of [Object], so the [HashMap] compares keys by
    reference, and the map is one from references to references. *)
Record world : Type := mkWorld {
  heap : list Character;
  flyweights : gmap ref ref
}.

(** [new FlyweightFactory()], in a store [h]. *)
Definition new_FlyweightFactory (h : list Character) : world :=
  {| heap := h; flyweights := ∅ |}.

Definition containsKey (m : gmap ref ref) (k : ref) : bool :=
  bool_decide (is_Some (m !! k)).

(** [getCharacter(value, size, font)]: the reference returned ([None] is
    [null]) and the world afterwards. *)
Definition getCharacter (value size : Z) (font : string) (w : world)
  : option ref * world :=
  let '(h, character) := alloc (heap w) (mkCharacter value size font) in
  let m :=
    if negb (containsKey (flyweights w) character)
    then <[character := character]> (flyweights w)
    else flyweights w in
  (m !! character, {| heap := h; flyweights := m |}).

(** The keys of the map are objects of the store. *)
Definition wf (w : world) : Prop :=
  ∀ k, is_Some (flyweights w !! k) → k < length (heap w).

(** Calls of [getCharacter] one after the other, one per requested
    triple: the references returned, in call order, and the world
    afterwards. *)
Fixpoint getCharacters (requests : list (Z * Z * string)) (w : world)
  : list (option ref) * world :=
  match requests with
  | [] => ([], w)
  | (value, size, font) :: requests =>
      let '(c, w) := getCharacter value size font w in
      let '(cs, w) := getCharacters requests w in
      (c :: cs, w)
  end.

End Flyweight.

(** ** State (Java): [MediaPlayer], [PlayingState], [PausedState],
    [StoppedState] *)

Module StatePattern.

(** The classes that implement [State].  A state object has no field and
    is never compared, so it is given by its class. *)
Inductive State : Type := PlayingState | PausedState | StoppedState.

Record MediaPlayer : Type := mkMediaPlayer { currentState : State }.

(** A player and the console. *)
Definition world : Type := MediaPlayer * list string.

Definition new_MediaPlayer : MediaPlayer := {| currentState := StoppedState |}.

Definition setState (state : State) (w : world) : world :=
  ({| currentState := state |}, w.2).

Definition println (line : string) (w : world) : world := (w.1, w.2 ++ [line]).

Definition PlayingState_play (w : world) : world := println "Already playing!" w.
Definition PlayingState_pause (w : world) : world :=
  setState PausedState (println "Pausing playback..." w).
Definition PlayingState_stop (w : world) : world :=
  setState StoppedState (println "Stopping playback..." w).

Definition PausedState_play (w : world) : world :=
  setState PlayingState (println "Resuming playback..." w).
Definition PausedState_pause (w : world) : world := println "Already paused!" w.
Definition PausedState_stop (w : world) : world :=
  setState StoppedState (println "Stopping playback..." w).

Definition StoppedState_play (w : world) : world :=
  setState PlayingState (println "Starting playback..." w).
Definition StoppedState_pause (w : world) : world :=
  println "Cannot pause. The media player is stopped." w.
Definition StoppedState_stop (w : world) : world := println "Already stopped!" w.

(** [MediaPlayer.play()] is [currentState.play(this)], and so on. *)
Definition play (w : world) : world :=
  match currentState w.1 with
  | PlayingState => PlayingState_play w
  | PausedState => PausedState_play w
  | StoppedState => StoppedState_play w
  end.

Definition pause (w : world) : world :=
  match currentState w.1 with
  | PlayingState => PlayingState_pause w
  | PausedState => PausedState_pause w
  | StoppedState => StoppedState_pause w
  end.

Definition stop (w : world) : world :=
  match currentState w.1 with
  | PlayingState => PlayingState_stop w
  | PausedState => PausedState_stop w
  | StoppedState => StoppedState_stop w
  end.

Inductive op : Type := Play | Pause | Stop.

Definition exec (o : op) (w : world) : world :=
  match o with
  | Play => play w
  | Pause => pause w
  | Stop => stop w
  end.

(** The transition table read off the three state classes. *)
Definition transition (o : op) (s : State) : State :=
  match o, s with
  | Play, _ => PlayingState
  | Pause, PlayingState => PausedState
  | Pause, s => s
  | Stop, _ => StoppedState
  end.

(** The line each operation prints, by state. *)
Definition message (o : op) (s : State) : string :=
  match o, s with
  | Play, PlayingState => "Already playing!"
  | Play, PausedState => "Resuming playback..."
  | Play, StoppedState => "Starting playback..."
  | Pause, PlayingState => "Pausing playback..."
  | Pause, PausedState => "Already paused!"
  | Pause, StoppedState => "Cannot pause. The media player is stopped."
  | Stop, PlayingState => "Stopping playback..."
  | Stop, PausedState => "Stopping playback..."
  | Stop, StoppedState => "Already stopped!"
  end.

(** A run of operations on a player. *)
Definition execs (os : list op) (w : world) : world :=
  foldl (λ w o, exec o w) w os.

End StatePattern.

(** ** Memento (Java): [Memento], [TextEditor], [Caretaker] *)

Module Memento.

(** A memento holds the content it was made from; [content] is [null]
    until it is set, so the state may be [null] too.  A memento is
    immutable and never compared, so it is given by its state. *)
Record Memento : Type := mkMemento { state : option string }.

Record TextEditor : Type := mkTextEditor { content : option string }.

(** The [history] stack, top first.  A [Stack] accepts [null], and
    [undo] returns [null], so a memento reference is an option. *)
Record Caretaker : Type := mkCaretaker { history : list (option Memento) }.

Inductive exn : Type := NullPointerException.

Inductive result (A : Type) : Type :=
| Ok (a : A)
| Raise (e : exn).
Arguments Ok {A} a.
Arguments Raise {A} e.

Definition raises {A} (r : result A) : bool :=
  match r with Ok _ => false | Raise _ => true end.

Definition new_TextEditor : TextEditor := {| content := None |}.
Definition new_Caretaker : Caretaker := {| history := [] |}.

Definition setContent (c : string) (e : TextEditor) : TextEditor :=
  {| content := Some c |}.

Definition getContent (e : TextEditor) : option string := content e.

Definition save (e : TextEditor) : option Memento :=
  Some {| state := content e |}.

(** [restore(memento)] is [this.content = memento.getState()]: on [null]
    the call of [getState()] raises. *)
Definition restore (memento : option Memento) (e : TextEditor) : result TextEditor :=
  match memento with
  | Some m => Ok {| content := state m |}
  | None => Raise NullPointerException
  end.

Definition saveState (memento : option Memento) (c : Caretaker) : Caretaker :=
  {| history := memento :: history c |}.

(** [undo()]: the top of the stack, popped, or [null] when the stack is
    empty. *)
Definition undo (c : Caretaker) : option Memento * Caretaker :=
  match history c with
  | m :: rest => (m, {| history := rest |})
  | [] => (None, c)
  end.

End Memento.

(** * Properties *)

(** ** Object store *)

Section store_facts.
Context {A : Type}.
Implicit Types (h : list A) (o x : A) (r : ref).

Lemma alloc_fresh h : h !! length h = None.
Proof. apply lookup_ge_None. lia. Qed.

Lemma alloc_lookup_new h o : (h ++ [o]) !! length h = Some o.
Proof. rewrite lookup_app_r by lia. by rewrite Nat.sub_diag. Qed.

Lemma alloc_lookup_old h o x r : h !! r = Some x → (h ++ [o]) !! r = Some x.
Proof. intros Hr. by apply lookup_app_l_Some. Qed.

Lemma lookup_ne_fresh h x r : h !! r = Some x → r ≠ length h.
Proof. intros Hr%lookup_lt_Some. lia. Qed.
End store_facts.

Lemma wrap32_id (z : Z) : (-2147483648 ≤ z < 2147483648)%Z → wrap32 z = z.
Proof. intros Hz. unfold wrap32. rewrite Z.mod_small; lia. Qed.

(** ** Decorator *)

(** A window only appends to the console: what was printed before stays,
    and what is added does not depend on it. *)
Lemma Decorator_draw_appends (w : Decorator.Window) (console : list string) :
  Decorator.draw w console = console ++ Decorator.output w.
Proof.
  unfold Decorator.output. revert console.
  induction w as [|w IH|w IH]; intros console; simpl.
  - done.
  - apply IH.
  - unfold Decorator.drawBorder. rewrite IH, (IH []). by rewrite <-app_assoc.
Qed.

Example Decorator_Client_output :
  Decorator.Client =
    ["Simple Window:"; "Drawing a simple window"; "
Decorated Window:"; "Drawing a simple window";
     "Drawing a border around the window"].
Proof. reflexivity. Qed.

(** C9. Decoration preserves and appends: for every window [w], on every
    console, [BorderedWindowDecorator(w).draw()] prints what [w.draw()]
    prints and then the one line "Drawing a border around the window";
    [WindowDecorator(w).draw()] prints what [w.draw()] prints; and what
    [w.draw()] prints is the same inside a decorator as outside
    ([output w], appended to whatever the console holds). *)
Theorem Decorator_preserves_and_appends (w : Decorator.Window) (console : list string) :
  Decorator.draw (Decorator.BorderedWindowDecorator w) console
    = Decorator.draw w console ++ ["Drawing a border around the window"]
  ∧ Decorator.draw (Decorator.WindowDecorator w) console = Decorator.draw w console
  ∧ Decorator.draw w console = console ++ Decorator.output w
  ∧ Decorator.draw (Decorator.BorderedWindowDecorator w) console
    = console ++ Decorator.output w ++ ["Drawing a border around the window"]
  ∧ Decorator.draw (Decorator.WindowDecorator w) console
    = console ++ Decorator.output w.
Proof.
  split_and!; simpl; unfold Decorator.drawBorder.
  - done.
  - done.
  - apply Decorator_draw_appends.
  - rewrite Decorator_draw_appends. by rewrite <-app_assoc.
  - apply Decorator_draw_appends.
Qed.

(** ** Iterator *)

Lemma Iterator_hasNext_true (it : Iterator.PlaylistIterator) :
  Iterator.hasNext it = true ↔
  (Iterator.position it < Z.of_nat (length (Iterator.songs it)))%Z.
Proof. unfold Iterator.hasNext. apply bool_decide_eq_true. Qed.

Lemma Iterator_hasNext_false (it : Iterator.PlaylistIterator) :
  Iterator.hasNext it = false ↔
  (Z.of_nat (length (Iterator.songs it)) ≤ Iterator.position it)%Z.
Proof. unfold Iterator.hasNext. rewrite bool_decide_eq_false. lia. Qed.

(** A fresh iterator is in a state described by [wf]. *)
Lemma Iterator_new_wf (songs : list string) :
  (Z.of_nat (length songs) < 2147483648)%Z →
  Iterator.wf (Iterator.new_PlaylistIterator songs).
Proof. intros Hlen. unfold Iterator.wf. simpl. lia. Qed.

(** Inside the array, [next] returns the element and steps by one. *)
Lemma Iterator_next_inside (it : Iterator.PlaylistIterator) :
  Iterator.wf it → Iterator.hasNext it = true →
  ∃ s, Iterator.songs it !! Z.to_nat (Iterator.position it) = Some s ∧
       Iterator.next it =
         (Iterator.Ok s, {| Iterator.songs := Iterator.songs it;
                            Iterator.position := (Iterator.position it + 1)%Z |}).
Proof.
  intros [Hpos Hlen] Hnext. pose proof Hnext as Hlt%Iterator_hasNext_true.
  destruct (lookup_lt_is_Some_2 (Iterator.songs it) (Z.to_nat (Iterator.position it)))
    as [s Hs]; [lia|].
  exists s. split; [done|].
  unfold Iterator.next, Iterator.array_get. rewrite Hnext. simpl.
  rewrite bool_decide_eq_true_2 by lia. rewrite Hs.
  by rewrite wrap32_id by lia.
Qed.

(** [next] keeps the iterator in a state described by [wf]. *)
Lemma Iterator_next_wf (it : Iterator.PlaylistIterator) :
  Iterator.wf it → Iterator.wf (Iterator.next it).2.
Proof.
  intros Hwf. destruct (Iterator.hasNext it) eqn:Hnext.
  - destruct (Iterator_next_inside it Hwf Hnext) as (s & _ & ->).
    apply Iterator_hasNext_true in Hnext. destruct Hwf as [Hpos Hlen].
    unfold Iterator.wf. simpl. lia.
  - unfold Iterator.next. by rewrite Hnext.
Qed.

(** C3, as the code has it.  For an iterator in a state it can reach,
    [next()] raises exactly when [hasNext()] is false, exactly when
    [position >= songs.length], and what it raises is the
    [IllegalStateException]; otherwise it returns [songs[position]] and
    moves the position by one.  Within the iterator snippet nothing
    else raises: [hasNext()] never does, and [next()] raises nothing
    else. *)
Theorem Iterator_next_raises_iff_exhausted (it : Iterator.PlaylistIterator) :
  Iterator.wf it →
  (Iterator.raises (Iterator.next it).1 = true ↔ Iterator.hasNext it = false)
  ∧ (Iterator.hasNext it = false ↔
     (Z.of_nat (length (Iterator.songs it)) ≤ Iterator.position it)%Z)
  ∧ (Iterator.hasNext it = false →
     Iterator.next it =
       (Iterator.Raise (Iterator.IllegalStateException "No more songs in the playlist."),
        it))
  ∧ (Iterator.hasNext it = true →
     ∃ s, Iterator.songs it !! Z.to_nat (Iterator.position it) = Some s ∧
          Iterator.next it =
            (Iterator.Ok s, {| Iterator.songs := Iterator.songs it;
                               Iterator.position := (Iterator.position it + 1)%Z |}))
  ∧ (∀ o, Iterator.raises (Iterator.run o it).1 = true →
          o = Iterator.OpNext ∧ Iterator.hasNext it = false ∧
          (Iterator.run o it).1 =
            Iterator.Raise (Iterator.IllegalStateException "No more songs in the playlist.")).
Proof.
  intros Hwf.
  assert (Hexh : Iterator.hasNext it = false →
    Iterator.next it =
      (Iterator.Raise (Iterator.IllegalStateException "No more songs in the playlist."),
       it)).
  { intros Hnext. unfold Iterator.next. by rewrite Hnext. }
  split_and!.
  - split.
    + destruct (Iterator.hasNext it) eqn:Hnext; [|done].
      destruct (Iterator_next_inside it Hwf Hnext) as (s & _ & ->). done.
    + intros Hnext. by rewrite (Hexh Hnext).
  - apply Iterator_hasNext_false.
  - exact Hexh.
  - by apply Iterator_next_inside.
  - intros [] Hraise; simpl in *; [done|].
    destruct (Iterator.hasNext it) eqn:Hnext.
    + destruct (Iterator_next_inside it Hwf Hnext) as (s & _ & Heq).
      rewrite Heq in Hraise. done.
    + by rewrite (Hexh eq_refl).
Qed.

Lemma Iterator_next_raises_iff_exhausted_witness :
  let it := Iterator.mkIt ["Song A"; "Song B"] 1 in
  Iterator.wf it ∧
  ((Iterator.raises (Iterator.next it).1 = true ↔ Iterator.hasNext it = false)
  ∧ (Iterator.hasNext it = false ↔
     (Z.of_nat (length (Iterator.songs it)) ≤ Iterator.position it)%Z)
  ∧ (Iterator.hasNext it = false →
     Iterator.next it =
       (Iterator.Raise (Iterator.IllegalStateException "No more songs in the playlist."),
        it))
  ∧ (Iterator.hasNext it = true →
     ∃ s, Iterator.songs it !! Z.to_nat (Iterator.position it) = Some s ∧
          Iterator.next it =
            (Iterator.Ok s, {| Iterator.songs := Iterator.songs it;
                               Iterator.position := (Iterator.position it + 1)%Z |}))
  ∧ (∀ o, Iterator.raises (Iterator.run o it).1 = true →
          o = Iterator.OpNext ∧ Iterator.hasNext it = false ∧
          (Iterator.run o it).1 =
            Iterator.Raise (Iterator.IllegalStateException "No more songs in the playlist."))).
Proof.
  intros it. assert (Hwf : Iterator.wf it) by (unfold Iterator.wf; simpl; lia).
  split; [exact Hwf|].
  exact (Iterator_next_raises_iff_exhausted it Hwf).
Defined.

(** C3, as the claim has it, fails in its last clause: other snippets
    have error paths of their own.  In the Memento snippet [undo()] has a
    branch for the empty history, which returns [null], and
    [editor.restore(caretaker.undo())] then raises a
    [NullPointerException]. *)
Lemma Memento_restore_of_empty_undo_raises :
  ¬ (∀ (c : Memento.Caretaker) (e : Memento.TextEditor),
       Memento.raises (Memento.restore (Memento.undo c).1 e) = false).
Proof.
  intros Hclaim.
  specialize (Hclaim Memento.new_Caretaker Memento.new_TextEditor).
  discriminate Hclaim.
Qed.

(** The tests of the page. *)
Example Iterator_testSingleIteratorTraversal :
  let it0 := Iterator.createIterator (Iterator.mkPlaylist ["Song A"; "Song B"; "Song C"]) in
  let '(a, it1) := Iterator.next it0 in
  let '(b, it2) := Iterator.next it1 in
  let '(c, it3) := Iterator.next it2 in
  (Iterator.hasNext it0, a, Iterator.hasNext it1, b, Iterator.hasNext it2, c,
   Iterator.hasNext it3, (Iterator.next it3).1)
  = (true, Iterator.Ok "Song A", true, Iterator.Ok "Song B", true, Iterator.Ok "Song C",
     false,
     Iterator.Raise (Iterator.IllegalStateException "No more songs in the playlist.")).
Proof. reflexivity. Qed.

(** ** Singleton *)

Lemma Singleton_getInstance_initialized (w : Singleton.world) (r : ref) :
  Singleton.instance w = Some r → Singleton.getInstance w = (Some r, w).
Proof. intros Hr. unfold Singleton.getInstance. rewrite Hr. simpl. by rewrite Hr. Qed.

Lemma Singleton_calls_initialized (n : nat) (w : Singleton.world) (r : ref) :
  Singleton.instance w = Some r →
  Singleton.calls n w = (replicate n (Some r), w).
Proof.
  intros Hr. induction n as [|n IH]; [done|].
  cbn [Singleton.calls replicate].
  by rewrite (Singleton_getInstance_initialized w r Hr), IH.
Qed.

(** C4. From the uninitialized state ([instance] is [null]), whatever
    the store and the console hold, two calls of [getInstance()] return
    the same reference, the one the first call allocated; the second
    call changes nothing, so no second [Logger] is created; and the same
    holds for any number of calls in a row. *)
Theorem Singleton_same_reference
    (h : list Singleton.Logger) (c : list string) (n : nat) :
  let w0 := Singleton.mkWorld None h c in
  let w1 := (Singleton.getInstance w0).2 in
  let w2 := (Singleton.getInstance w1).2 in
  (Singleton.getInstance w0).1 = Some (length h)
  ∧ h !! length h = None
  ∧ (Singleton.getInstance w1).1 = (Singleton.getInstance w0).1
  ∧ Singleton.heap w1 = h ++ [Singleton.mkLogger]
  ∧ w2 = w1
  ∧ Singleton.calls (S n) w0 = (replicate (S n) (Some (length h)), w1)
  ∧ length (Singleton.heap (Singleton.calls (S n) w0).2) = S (length h).
Proof.
  intros w0 w1 w2.
  assert (H1 : Singleton.instance w1 = Some (length h)) by done.
  assert (Hcalls : Singleton.calls (S n) w0 = (replicate (S n) (Some (length h)), w1)).
  { assert (Hstep : Singleton.calls (S n) w0 =
      let '(rs, w') := Singleton.calls n w1 in (Some (length h) :: rs, w')) by done.
    rewrite Hstep. by rewrite (Singleton_calls_initialized n w1 _ H1). }
  split_and!.
  - done.
  - apply alloc_fresh.
  - by rewrite (Singleton_getInstance_initialized w1 _ H1).
  - done.
  - unfold w2. by rewrite (Singleton_getInstance_initialized w1 _ H1).
  - exact Hcalls.
  - rewrite Hcalls. simpl. rewrite length_app. simpl. lia.
Qed.

Example Singleton_testSingletonInstance :
  let w0 := Singleton.mkWorld None [] [] in
  let '(logger1, w1) := Singleton.getInstance w0 in
  let '(logger2, w2) := Singleton.getInstance w1 in
  logger1 = Some 0 ∧ logger2 = Some 0 ∧
  Singleton.console w2 = ["Logger initialized."].
Proof. by split_and!. Qed.

(** ** Prototype *)

Lemma Prototype_call_frame (h h' : list Prototype.obj) (this r : ref) (m : Prototype.setter) :
  Prototype.call h this m = Some h' → r ≠ this → h' !! r = h !! r.
Proof.
  unfold Prototype.call, Prototype.Circle_setRadius, Prototype.Circle_setColor,
    Prototype.Rectangle_setWidth, Prototype.Rectangle_setHeight,
    Prototype.Rectangle_setColor.
  intros Hcall Hne.
  destruct (h !! this) as [[]|] eqn:Hthis, m; simplify_eq;
    by apply list_lookup_insert_ne.
Qed.

Lemma Prototype_calls_frame (ms : list Prototype.setter) (h h' : list Prototype.obj)
    (this r : ref) :
  Prototype.calls h this ms = Some h' → r ≠ this → h' !! r = h !! r.
Proof.
  revert h. induction ms as [|m ms IH]; intros h Hcalls Hne; simpl in Hcalls.
  - by simplify_eq.
  - destruct (Prototype.call h this m) as [h1|] eqn:Hcall; [|done].
    rewrite (IH h1 Hcalls Hne). by eapply Prototype_call_frame.
Qed.

Lemma Prototype_clone_spec (h : list Prototype.obj) (this : ref) (o : Prototype.obj) :
  h !! this = Some o → Prototype.clone h this = Some (h ++ [o], length h).
Proof.
  intros Hthis. unfold Prototype.clone, Prototype.Circle_clone, Prototype.Rectangle_clone.
  rewrite Hthis. by destruct o.
Qed.

(** C5. For every [Circle] and every [Rectangle] of a store, [clone()]
    returns a reference that differs from the receiver (it referred to
    nothing before the call) and refers to an object of the same class
    with the same field values as the receiver has when cloned; the
    receiver keeps its fields. *)
Theorem Prototype_clone_distinct_equal
    (h : list Prototype.obj) (this : ref) (o : Prototype.obj) :
  h !! this = Some o →
  ∃ h' r,
    Prototype.clone h this = Some (h', r)
    ∧ match o with
      | Prototype.Circle _ _ => Prototype.Circle_clone h this
      | Prototype.Rectangle _ _ _ => Prototype.Rectangle_clone h this
      end = Some (h', r)
    ∧ r ≠ this
    ∧ h !! r = None
    ∧ h' !! r = Some o
    ∧ h' !! this = Some o.
Proof.
  intros Hthis. exists (h ++ [o]), (length h).
  pose proof (Prototype_clone_spec h this o Hthis) as Hclone.
  split_and!.
  - done.
  - unfold Prototype.clone in Hclone. rewrite Hthis in Hclone. by destruct o.
  - intros Heq. rewrite <-Heq in Hthis. by rewrite alloc_fresh in Hthis.
  - apply alloc_fresh.
  - apply alloc_lookup_new.
  - by apply alloc_lookup_old.
Qed.

Lemma Prototype_clone_distinct_equal_witness :
  let h := [Prototype.Circle 10 "Red"; Prototype.Rectangle 20 30 "Blue"] in
  h !! 1 = Some (Prototype.Rectangle 20 30 "Blue") ∧
  ∃ h' r,
    Prototype.clone h 1 = Some (h', r)
    ∧ Prototype.Rectangle_clone h 1 = Some (h', r)
    ∧ r ≠ 1
    ∧ h !! r = None
    ∧ h' !! r = Some (Prototype.Rectangle 20 30 "Blue")
    ∧ h' !! 1 = Some (Prototype.Rectangle 20 30 "Blue").
Proof.
  intros h. split; [reflexivity|].
  exact (Prototype_clone_distinct_equal h 1 (Prototype.Rectangle 20 30 "Blue") eq_refl).
Defined.

(** A setter that the class of the receiver declares goes through, and
    the receiver stays an object of its class. *)
Lemma Prototype_call_total (h : list Prototype.obj) (this : ref) (o : Prototype.obj)
    (m : Prototype.setter) :
  h !! this = Some o → Prototype.declares o m = true →
  ∃ h' o', Prototype.call h this m = Some h' ∧ h' !! this = Some o' ∧
           ∀ m', Prototype.declares o' m' = Prototype.declares o m'.
Proof.
  intros Hthis Hm. pose proof (lookup_lt_Some _ _ _ Hthis) as Hlt.
  unfold Prototype.call, Prototype.Circle_setRadius, Prototype.Circle_setColor,
    Prototype.Rectangle_setWidth, Prototype.Rectangle_setHeight,
    Prototype.Rectangle_setColor.
  rewrite Hthis.
  destruct o, m; try discriminate Hm;
    eexists _, _; (split_and!; [reflexivity|by apply list_lookup_insert_eq|done]).
Qed.

Lemma Prototype_calls_total (ms : list Prototype.setter) (h : list Prototype.obj)
    (this : ref) (o : Prototype.obj) :
  h !! this = Some o → Forall (λ m, Prototype.declares o m = true) ms →
  ∃ h', Prototype.calls h this ms = Some h'.
Proof.
  revert h o. induction ms as [|m ms IH]; intros h o Hthis Hms; simpl.
  - by eexists.
  - apply Forall_cons in Hms as [Hm Hms].
    destruct (Prototype_call_total h this o m Hthis Hm) as (h' & o' & -> & Hthis' & Hsame).
    apply (IH h' o' Hthis').
    eapply Forall_impl; [exact Hms|]. intros m' Hm'. simpl in *. by rewrite Hsame.
Qed.

(** C10. Clone independence: after [clone()], setter calls on the clone,
    however many, go through and leave the original with the fields it
    had, and setter calls on the original made after that go through and
    leave the clone as it was. *)
Theorem Prototype_clone_independent
    (h : list Prototype.obj) (this : ref) (o : Prototype.obj)
    (on_clone on_original : list Prototype.setter) :
  h !! this = Some o →
  Forall (λ m, Prototype.declares o m = true) on_clone →
  Forall (λ m, Prototype.declares o m = true) on_original →
  ∃ h1 r h2 h3,
    Prototype.clone h this = Some (h1, r)
    ∧ Prototype.calls h1 r on_clone = Some h2
    ∧ Prototype.calls h2 this on_original = Some h3
    ∧ h2 !! this = Some o
    ∧ h3 !! r = h2 !! r.
Proof.
  intros Hthis Hc Ho.
  pose proof (Prototype_clone_spec h this o Hthis) as Hclone.
  assert (Hne : this ≠ length h) by by eapply lookup_ne_fresh.
  destruct (Prototype_calls_total on_clone (h ++ [o]) (length h) o) as [h2 H2];
    [apply alloc_lookup_new|done|].
  assert (Hthis2 : h2 !! this = Some o).
  { rewrite (Prototype_calls_frame _ _ _ _ _ H2 Hne). by apply alloc_lookup_old. }
  destruct (Prototype_calls_total on_original h2 this o Hthis2 Ho) as [h3 H3].
  exists (h ++ [o]), (length h), h2, h3. split_and!; [done|done|done|done|].
  by apply (Prototype_calls_frame _ _ _ _ _ H3).
Qed.

Lemma Prototype_clone_independent_witness :
  let h := [Prototype.Rectangle 20 30 "Blue"] in
  let on_clone := [Prototype.setColor "Green"; Prototype.setHeight 40] in
  let on_original := [Prototype.setWidth 5] in
  (h !! 0 = Some (Prototype.Rectangle 20 30 "Blue") ∧
   Forall (λ m, Prototype.declares (Prototype.Rectangle 20 30 "Blue") m = true) on_clone ∧
   Forall (λ m, Prototype.declares (Prototype.Rectangle 20 30 "Blue") m = true) on_original) ∧
  ∃ h1 r h2 h3,
    Prototype.clone h 0 = Some (h1, r)
    ∧ Prototype.calls h1 r on_clone = Some h2
    ∧ Prototype.calls h2 0 on_original = Some h3
    ∧ h2 !! 0 = Some (Prototype.Rectangle 20 30 "Blue")
    ∧ h3 !! r = h2 !! r.
Proof.
  intros h on_clone on_original.
  assert (Hc : Forall (λ m, Prototype.declares (Prototype.Rectangle 20 30 "Blue") m = true)
                 on_clone) by (repeat constructor).
  assert (Ho : Forall (λ m, Prototype.declares (Prototype.Rectangle 20 30 "Blue") m = true)
                 on_original) by (repeat constructor).
  split; [by split_and!|].
  exact (Prototype_clone_independent h 0 (Prototype.Rectangle 20 30 "Blue")
           on_clone on_original eq_refl Hc Ho).
Defined.

(** The setters are there to be called: on an object of the right class
    a setter call goes through and sets the field. *)
Example Prototype_testRectangleClone :
  let '(h, original) := Prototype.new_Rectangle [] 20 30 "Blue" in
  ∃ h1 clone h2,
    Prototype.clone h original = Some (h1, clone) ∧
    clone ≠ original ∧ h1 !! clone = h1 !! original ∧
    Prototype.call h1 clone (Prototype.setColor "Green") = Some h2 ∧
    h2 !! original = Some (Prototype.Rectangle 20 30 "Blue") ∧
    h2 !! clone = Some (Prototype.Rectangle 20 30 "Green").
Proof. simpl. eexists _, _, _. by split_and!. Qed.

(** ** Builder *)

(** One builder method on a builder of either class: the call goes
    through, is logged, and replaces the house by a house; nothing else
    in the store changes.  For a [BrickHouseBuilder] the new house is
    the old one with the brick material in the field of the method. *)
Lemma Builder_invoke_step (w : Builder.world) (b house : ref) (m : Builder.method)
    (f s r i : option string) :
  Builder.heap w !! b = Some (Builder.WoodenHouseBuilder house) ∨
  Builder.heap w !! b = Some (Builder.BrickHouseBuilder house) →
  Builder.heap w !! house = Some (Builder.House f s r i) →
  ∃ w' f' s' r' i',
    Builder.invoke b m w = Some w'
    ∧ Builder.invoked w' = Builder.invoked w ++ [(b, m)]
    ∧ Builder.heap w' !! house = Some (Builder.House f' s' r' i')
    ∧ (∀ x, x ≠ house → Builder.heap w' !! x = Builder.heap w !! x)
    ∧ (Builder.heap w !! b = Some (Builder.BrickHouseBuilder house) →
       (f', s', r', i') =
         match m with
         | Builder.buildFoundation => (Some "Concrete and Steel", s, r, i)
         | Builder.buildStructure => (f, Some "Brick and Mortar", r, i)
         | Builder.buildRoof => (f, s, Some "Concrete Slabs", i)
         | Builder.buildInterior => (f, s, r, Some "Plastered Walls")
         end).
Proof.
  intros Hb Hh. pose proof (lookup_lt_Some _ _ _ Hh) as Hlt.
  unfold Builder.invoke.
  destruct Hb as [Hb|Hb]; rewrite Hb; destruct m; simpl;
    unfold Builder.setFoundation, Builder.setStructure, Builder.setRoof,
      Builder.setInterior; rewrite Hh; simpl;
    eexists _, _, _, _, _; (split; [reflexivity|]); simpl;
    (split_and!;
      [done
      |by apply list_lookup_insert_eq
      |by intros x Hx; apply list_lookup_insert_ne
      |by intros ?; simplify_eq]).
Qed.

(** C6. [constructHouse()] on a director whose builder is a builder of
    either class never fails and invokes [buildFoundation],
    [buildStructure], [buildRoof], [buildInterior] on that builder, in
    that order and nothing else; when the builder is a
    [BrickHouseBuilder], [getHouse()] then returns a house with
    foundation "Concrete and Steel", structure "Brick and Mortar", roof
    "Concrete Slabs" and interior "Plastered Walls". *)
Theorem Builder_constructHouse_straight_line (w : Builder.world) (d b : ref) :
  Builder.heap w !! d = Some (Builder.ConstructionDirector b) →
  Builder.is_builder (Builder.heap w) b →
  ∃ w',
    Builder.constructHouse d w = Some w'
    ∧ Builder.invoked w' =
        Builder.invoked w ++
          [(b, Builder.buildFoundation); (b, Builder.buildStructure);
           (b, Builder.buildRoof); (b, Builder.buildInterior)]
    ∧ (∀ house, Builder.heap w !! b = Some (Builder.BrickHouseBuilder house) →
         Builder.getHouse b w' = Some house ∧
         Builder.heap w' !! house =
           Some (Builder.House (Some "Concrete and Steel") (Some "Brick and Mortar")
                   (Some "Concrete Slabs") (Some "Plastered Walls"))).
Proof.
  intros Hd (house & Hb & (f & s & r & i & Hh)).
  assert (Hne : b ≠ house) by (intros ->; destruct Hb; congruence).
  destruct (Builder_invoke_step w b house Builder.buildFoundation f s r i Hb Hh)
    as (w1 & f1 & s1 & r1 & i1 & E1 & L1 & Hh1 & F1 & B1).
  assert (Hb1 : Builder.heap w1 !! b = Some (Builder.WoodenHouseBuilder house) ∨
                Builder.heap w1 !! b = Some (Builder.BrickHouseBuilder house))
    by by rewrite (F1 b Hne).
  destruct (Builder_invoke_step w1 b house Builder.buildStructure _ _ _ _ Hb1 Hh1)
    as (w2 & f2 & s2 & r2 & i2 & E2 & L2 & Hh2 & F2 & B2).
  assert (Hb2 : Builder.heap w2 !! b = Some (Builder.WoodenHouseBuilder house) ∨
                Builder.heap w2 !! b = Some (Builder.BrickHouseBuilder house))
    by by rewrite (F2 b Hne).
  destruct (Builder_invoke_step w2 b house Builder.buildRoof _ _ _ _ Hb2 Hh2)
    as (w3 & f3 & s3 & r3 & i3 & E3 & L3 & Hh3 & F3 & B3).
  assert (Hb3 : Builder.heap w3 !! b = Some (Builder.WoodenHouseBuilder house) ∨
                Builder.heap w3 !! b = Some (Builder.BrickHouseBuilder house))
    by by rewrite (F3 b Hne).
  destruct (Builder_invoke_step w3 b house Builder.buildInterior _ _ _ _ Hb3 Hh3)
    as (w4 & f4 & s4 & r4 & i4 & E4 & L4 & Hh4 & F4 & B4).
  exists w4. split_and!.
  - unfold Builder.constructHouse. rewrite Hd. simpl.
    rewrite E1. simpl. rewrite E2. simpl. by rewrite E3.
  - rewrite L4, L3, L2, L1. by rewrite <-!app_assoc.
  - intros house' Hbrick.
    assert (house' = house) as -> by (destruct Hb; congruence).
    split.
    + unfold Builder.getHouse. by rewrite (F4 b Hne), (F3 b Hne), (F2 b Hne), (F1 b Hne), Hbrick.
    + specialize (B1 Hbrick).
      rewrite <-(F1 b Hne) in Hbrick. specialize (B2 Hbrick).
      rewrite <-(F2 b Hne) in Hbrick. specialize (B3 Hbrick).
      rewrite <-(F3 b Hne) in Hbrick. specialize (B4 Hbrick).
      by simplify_eq.
Qed.

Lemma Builder_constructHouse_straight_line_witness :
  let w := Builder.mkWorld
             [Builder.House None None None None; Builder.BrickHouseBuilder 0;
              Builder.ConstructionDirector 1] [] in
  (Builder.heap w !! 2 = Some (Builder.ConstructionDirector 1) ∧
   Builder.is_builder (Builder.heap w) 1) ∧
  ∃ w',
    Builder.constructHouse 2 w = Some w'
    ∧ Builder.invoked w' =
        Builder.invoked w ++
          [(1, Builder.buildFoundation); (1, Builder.buildStructure);
           (1, Builder.buildRoof); (1, Builder.buildInterior)]
    ∧ (∀ house, Builder.heap w !! 1 = Some (Builder.BrickHouseBuilder house) →
         Builder.getHouse 1 w' = Some house ∧
         Builder.heap w' !! house =
           Some (Builder.House (Some "Concrete and Steel") (Some "Brick and Mortar")
                   (Some "Concrete Slabs") (Some "Plastered Walls"))).
Proof.
  intros w.
  assert (Hb : Builder.is_builder (Builder.heap w) 1).
  { exists 0. split; [by right|]. by exists None, None, None, None. }
  split; [by split|].
  exact (Builder_constructHouse_straight_line w 2 1 eq_refl Hb).
Defined.

(** ** Observer *)

Section observer_facts.
Context {double : Type} (toString : double → string).
Implicit Types (s : Observer.StockMarket (double := double)).
Implicit Types (w : Observer.world (double := double)).

Lemma Observer_for_each_spec (os : list ref) (stockName : string) (price : double) w :
  (∀ o, o ∈ os → is_Some (Observer.heap w !! o)) →
  ∃ w', Observer.for_each toString os stockName price w = Some w'
        ∧ Observer.heap w' = Observer.heap w
        ∧ Observer.updates w' =
            Observer.updates w ++ map (λ o, (o, stockName, price)) os.
Proof.
  revert w. induction os as [|o os IH]; intros w Halive; simpl.
  - exists w. by rewrite app_nil_r.
  - destruct (Halive o) as [[name] Ho]; [left|].
    unfold Observer.update. rewrite Ho. simpl.
    destruct (IH (Observer.Trader_update toString o name stockName price w))
      as (w' & Hrun & Hheap & Hlog).
    { intros o' Ho'. simpl. apply Halive. by right. }
    exists w'. split_and!; [done|done|].
    rewrite Hlog. simpl. by rewrite <-app_assoc.
Qed.

Lemma Observer_updates_on_app (o : ref) (l1 l2 : list (ref * string * double)) :
  Observer.updates_on o (l1 ++ l2) = Observer.updates_on o l1 + Observer.updates_on o l2.
Proof. unfold Observer.updates_on. by rewrite filter_app, length_app. Qed.

Lemma Observer_updates_on_map (o : ref) (os : list ref) (stockName : string) (price : double) :
  Observer.updates_on o (map (λ x, (x, stockName, price)) os)
  = length (filter (λ x, x = o) os).
Proof.
  unfold Observer.updates_on. induction os as [|x os IH]; [done|]. simpl.
  rewrite !filter_cons. simpl. destruct (decide (x = o)); simpl; by rewrite IH.
Qed.

Lemma Observer_count_absent (o : ref) (os : list ref) :
  o ∉ os → length (filter (λ x, x = o) os) = 0.
Proof.
  induction os as [|x os IH]; intros Ho; [done|].
  apply not_elem_of_cons in Ho as [Hne Ho].
  rewrite filter_cons_False by congruence. by apply IH.
Qed.

Lemma Observer_count_NoDup (o : ref) (os : list ref) :
  NoDup os → o ∈ os → length (filter (λ x, x = o) os) = 1.
Proof.
  induction 1 as [|x os Hx Hnd IH]; intros Ho; [by apply elem_of_nil in Ho|].
  destruct (decide (x = o)) as [->|Hne].
  - rewrite filter_cons_True by done. simpl. by rewrite Observer_count_absent.
  - rewrite filter_cons_False by done.
    apply IH. apply elem_of_cons in Ho as [->|Ho]; done.
Qed.

(** [detach] takes out the first entry for the observer and keeps the
    others in their order. *)
Lemma Observer_remove_spec (o : ref) (os : list ref) :
  ((o ∉ os) ∧ Observer.ArrayList_remove o os = os) ∨
  (∃ l1 l2, os = l1 ++ o :: l2 ∧ (o ∉ l1) ∧ Observer.ArrayList_remove o os = l1 ++ l2).
Proof.
  induction os as [|x os IH]; simpl.
  - left. split; [apply not_elem_of_nil|done].
  - destruct (decide (x = o)) as [->|Hne].
    + right. exists [], os. split_and!; [done|apply not_elem_of_nil|done].
    + destruct IH as [[Hno Heq]|(l1 & l2 & Heq & Hno & Hrem)].
      * left. split; [|by rewrite Heq].
        rewrite not_elem_of_cons. by split.
      * right. exists (x :: l1), l2. split_and!.
        -- by rewrite Heq.
        -- rewrite not_elem_of_cons. by split.
        -- by rewrite Hrem.
Qed.

Lemma Observer_remove_NoDup (o : ref) (os : list ref) :
  NoDup os → NoDup (Observer.ArrayList_remove o os) ∧ o ∉ Observer.ArrayList_remove o os.
Proof.
  intros Hnd. destruct (Observer_remove_spec o os) as [[Hno ->]|(l1 & l2 & -> & Hno & ->)].
  - done.
  - apply NoDup_app in Hnd as (Hl1 & Hdisj & Hl2).
    apply NoDup_cons in Hl2 as [Ho2 Hl2]. split.
    + apply NoDup_app. split_and!; [done| |done].
      intros y Hy1 Hy2. apply (Hdisj y Hy1). by right.
    + rewrite elem_of_app. by intros [|].
Qed.

End observer_facts.

(** [attach] puts the observer at the end of the list, whether it is
    already in the list or not. *)
Lemma Observer_attach_order {double : Type} (o : ref)
    (s : Observer.StockMarket (double := double)) :
  Observer.observers (Observer.attach o s) = Observer.observers s ++ [o].
Proof. done. Qed.

(** A run of [attach] calls, from any subject, leaves the observers in
    the order of the calls, after those that were there. *)
Lemma Observer_attaches_in_order {double : Type} (os : list ref)
    (s : Observer.StockMarket (double := double)) :
  Observer.observers (foldl Observer.apply_op s (Observer.Attach <$> os))
  = Observer.observers s ++ os.
Proof.
  revert s. induction os as [|o os IH]; intros s; simpl.
  - by rewrite app_nil_r.
  - rewrite IH. simpl. by rewrite <-app_assoc.
Qed.

(** C7, as the code has it.  [notifyObservers(stockName, price)] never
    fails and calls [update(stockName, price)] once for every entry of
    the observers list, in list order; an observer is called as many
    times as it is in the list, so exactly once when the list holds no
    observer twice, and not at all when it is not in the list.  The list
    order is the order of attachment: a run of [attach] calls gives the
    list of the observers attached, in call order; [attach] puts the
    observer at the end, whether it is in the list or not, so that it is
    notified after those already there; [detach] takes out the first
    entry for the observer, if there is one, and keeps the others in
    their order. *)
Theorem Observer_notify_once_per_entry {double : Type} (toString : double → string)
    (s : Observer.StockMarket) (w : Observer.world)
    (stockName : string) (price : double) :
  Observer.observers_alive s w →
  (∃ w',
    Observer.notifyObservers toString s stockName price w = Some w'
    ∧ Observer.heap w' = Observer.heap w
    ∧ Observer.updates w' =
        Observer.updates w ++ map (λ o, (o, stockName, price)) (Observer.observers s)
    ∧ (∀ o, Observer.updates_on o (Observer.updates w') =
            Observer.updates_on o (Observer.updates w) +
            length (filter (λ x, x = o) (Observer.observers s)))
    ∧ (NoDup (Observer.observers s) →
       ∀ o, o ∈ Observer.observers s →
            Observer.updates_on o (Observer.updates w') =
            Observer.updates_on o (Observer.updates w) + 1)
    ∧ (∀ o, o ∉ Observer.observers s →
            Observer.updates_on o (Observer.updates w') =
            Observer.updates_on o (Observer.updates w)))
  ∧ (∀ os, Observer.observers (Observer.history (double := double) (Observer.Attach <$> os))
           = os)
  ∧ (∀ o, Observer.observers (Observer.attach o s) = Observer.observers s ++ [o])
  ∧ (∀ o w1, Observer.heap w1 = Observer.heap w → is_Some (Observer.heap w !! o) →
       ∃ w', Observer.notifyObservers toString (Observer.attach o s) stockName price w1
               = Some w'
             ∧ Observer.updates w' =
                 Observer.updates w1 ++
                   map (λ x, (x, stockName, price)) (Observer.observers s) ++
                   [(o, stockName, price)])
  ∧ (∀ o, ((o ∉ Observer.observers s) ∧
           Observer.observers (Observer.detach o s) = Observer.observers s)
          ∨ (∃ l1 l2, Observer.observers s = l1 ++ o :: l2 ∧ (o ∉ l1) ∧
                      Observer.observers (Observer.detach o s) = l1 ++ l2)).
Proof.
  intros Halive.
  destruct (Observer_for_each_spec toString (Observer.observers s) stockName price w Halive)
    as (w' & Hrun & Hheap & Hlog).
  assert (Hcount : ∀ o, Observer.updates_on o (Observer.updates w') =
            Observer.updates_on o (Observer.updates w) +
            length (filter (λ x, x = o) (Observer.observers s))).
  { intros o. by rewrite Hlog, Observer_updates_on_app, Observer_updates_on_map. }
  split_and!.
  - exists w'. split_and!; [done|done|done|done| |].
    + intros Hnd o Ho. by rewrite Hcount, Observer_count_NoDup.
    + intros o Ho. rewrite Hcount, Observer_count_absent by done. lia.
  - intros os. unfold Observer.history.
    by rewrite (Observer_attaches_in_order os Observer.new_StockMarket).
  - done.
  - intros o w1 Hh1 Ho.
    destruct (Observer_for_each_spec toString (Observer.observers (Observer.attach o s))
                stockName price w1) as (w2 & Hrun2 & _ & Hlog2).
    { intros x Hx. rewrite Hh1. simpl in Hx. apply elem_of_app in Hx as [Hx|Hx].
      - by apply Halive.
      - by apply list_elem_of_singleton in Hx as ->. }
    exists w2. split; [exact Hrun2|].
    rewrite Hlog2. simpl. by rewrite map_app.
  - intros o. simpl. apply Observer_remove_spec.
Qed.

Lemma Observer_notify_once_per_entry_witness :
  let toString := λ _ : Z, "155.0" in
  let s := Observer.history
             [Observer.Attach 1; Observer.Attach 0; Observer.Attach 1; Observer.Attach 2;
              Observer.Detach 2] in
  let w := Observer.mkWorld
             [Observer.mkTrader "Alice"; Observer.mkTrader "Bob"; Observer.mkTrader "Carol"]
             [] [] in
  (Observer.observers s = [1; 0; 1] ∧ Observer.observers_alive s w) ∧
  ∃ w',
    Observer.notifyObservers toString s "AAPL" 155%Z w = Some w'
    ∧ Observer.updates w' = [(1, "AAPL", 155%Z); (0, "AAPL", 155%Z); (1, "AAPL", 155%Z)]
    ∧ Observer.updates_on 1 (Observer.updates w') = 2
    ∧ Observer.updates_on 0 (Observer.updates w') = 1
    ∧ Observer.updates_on 2 (Observer.updates w') = 0.
Proof.
  intros toString s w.
  assert (Halive : Observer.observers_alive s w).
  { intros o Ho. change (Observer.observers s) with [1; 0; 1] in Ho.
    apply elem_of_cons in Ho as [->|Ho]; [by eexists|].
    apply elem_of_cons in Ho as [->|Ho]; [by eexists|].
    apply list_elem_of_singleton in Ho as ->. by eexists. }
  split; [by split|].
  destruct (Observer_notify_once_per_entry toString s w "AAPL" 155%Z Halive)
    as ((w' & Hrun & _ & Hlog & Hcount & _ & _) & _).
  exists w'. split_and!.
  - exact Hrun.
  - exact Hlog.
  - exact (Hcount 1).
  - exact (Hcount 0).
  - exact (Hcount 2).
Defined.

(** C7, as the claim has it, fails: an observer attached twice is in the
    list twice and is called twice by one notification. *)
Lemma Observer_attached_twice_updated_twice :
  ¬ (∀ (ops : list Observer.op) (o : ref) (stockName : string) (price : Z)
       (w w' : Observer.world),
       o ∈ Observer.observers (Observer.history (double := Z) ops) →
       Observer.notifyObservers (λ _, "150.0") (Observer.history ops) stockName price w
         = Some w' →
       Observer.updates_on o (Observer.updates w') =
       Observer.updates_on o (Observer.updates w) + 1).
Proof.
  intros Hclaim.
  specialize (Hclaim [Observer.Attach 0; Observer.Attach 0] 0 "AAPL" 150%Z
    (Observer.mkWorld [Observer.mkTrader "Alice"] [] [])
    (Observer.mkWorld [Observer.mkTrader "Alice"]
       ["Trader Alice notified: AAPL price updated to 150.0";
        "Trader Alice notified: AAPL price updated to 150.0"]
       [(0, "AAPL", 150%Z); (0, "AAPL", 150%Z)])).
  assert (Hin : 0 ∈ Observer.observers
    (Observer.history (double := Z) [Observer.Attach 0; Observer.Attach 0])) by left.
  specialize (Hclaim Hin eq_refl). vm_compute in Hclaim. discriminate Hclaim.
Qed.

(** The same list semantics on the detach side: after two [attach] and
    one [detach] of the same observer, it is still notified. *)
Example Observer_detach_removes_one_entry :
  Observer.observers
    (Observer.history (double := Z)
       [Observer.Attach 0; Observer.Attach 0; Observer.Detach 0]) = [0].
Proof. reflexivity. Qed.

(** ** Chain of responsibility *)

(** The store [Client.main] ends up with: the three handlers, appended
    in creation order and linked first to second to third. *)
Lemma Chain_Client_chain_shape (w : ChainOfResponsibility.world) :
  let a := length (ChainOfResponsibility.heap w) in
  ChainOfResponsibility.Client_chain w =
    Some (a, S a, S (S a),
          ChainOfResponsibility.mkWorld
            (ChainOfResponsibility.heap w ++
               [ChainOfResponsibility.mkHandler
                  ChainOfResponsibility.AutomatedHandler (Some (S a));
                ChainOfResponsibility.mkHandler
                  ChainOfResponsibility.AgentHandler (Some (S (S a)));
                ChainOfResponsibility.mkHandler
                  ChainOfResponsibility.SupervisorHandler None])
            (ChainOfResponsibility.console w)
            (ChainOfResponsibility.handled w)).
Proof.
  destruct w as [h c l]. simpl.
  unfold ChainOfResponsibility.Client_chain, ChainOfResponsibility.new_Handler,
    ChainOfResponsibility.setNext, alloc. simpl.
  rewrite !length_app. simpl.
  replace (length h + 1) with (S (length h)) by lia.
  replace (S (length h) + 1) with (S (S (length h))) by lia.
  rewrite <-!app_assoc. simpl.
  rewrite (lookup_app_r h) by lia. rewrite Nat.sub_diag. simpl.
  rewrite (insert_app_r_alt h) by lia. rewrite Nat.sub_diag. simpl.
  rewrite (lookup_app_r h) by lia.
  replace (S (length h) - length h) with 1 by lia. simpl.
  rewrite (insert_app_r_alt h) by lia.
  replace (S (length h) - length h) with 1 by lia. done.
Qed.

(** C8. In the chain of [Client.main], set up in any store, a request
    handed to [automatedHandler] goes through the handlers in chain order
    up to the first whose keyword it is, each one receiving the request
    as it was sent; exactly one line is printed, by that handler, and
    when no keyword matches the request goes through all three and the
    line is the last handler's "Unable to process the request."  Three
    units of fuel are enough, more change nothing. *)
Theorem Chain_exactly_one_handler
    (w0 : ChainOfResponsibility.world) (request : string) (k : nat) :
  ∃ a b c w,
    ChainOfResponsibility.Client_chain w0 = Some (a, b, c, w)
    ∧ ChainOfResponsibility.handleRequest (3 + k) a request w =
        Some (ChainOfResponsibility.mkWorld
                (ChainOfResponsibility.heap w)
                (ChainOfResponsibility.console w ++
                   [ChainOfResponsibility.answer request])
                (ChainOfResponsibility.handled w ++
                   map (λ r, (r, request))
                     (ChainOfResponsibility.route a b c request))).
Proof.
  eexists _, _, _, _. split; [apply Chain_Client_chain_shape|].
  destruct w0 as [h c l].
  unfold ChainOfResponsibility.answer, ChainOfResponsibility.route.
  cbn [ChainOfResponsibility.heap ChainOfResponsibility.console
       ChainOfResponsibility.handled].
  change (3 + k) with (S (S (S k))).
  cbn [ChainOfResponsibility.handleRequest ChainOfResponsibility.heap
       ChainOfResponsibility.console ChainOfResponsibility.handled].
  rewrite (lookup_app_r h) by lia. rewrite Nat.sub_diag.
  cbn [lookup list_lookup mbind option_bind ChainOfResponsibility.cls
       ChainOfResponsibility.next].
  destruct (decide (request = "basic")) as [->|Hbasic]; [done|].
  cbn [ChainOfResponsibility.handleRequest ChainOfResponsibility.heap
       ChainOfResponsibility.console ChainOfResponsibility.handled].
  rewrite (lookup_app_r h) by lia.
  replace (S (length h) - length h) with 1 by lia.
  cbn [lookup list_lookup mbind option_bind ChainOfResponsibility.cls
       ChainOfResponsibility.next].
  destruct (decide (request = "intermediate")) as [->|Hinter].
  { unfold ChainOfResponsibility.println. simpl. by rewrite <-app_assoc. }
  cbn [ChainOfResponsibility.handleRequest ChainOfResponsibility.heap
       ChainOfResponsibility.console ChainOfResponsibility.handled].
  rewrite (lookup_app_r h) by lia.
  replace (S (S (length h)) - length h) with 2 by lia.
  cbn [lookup list_lookup mbind option_bind ChainOfResponsibility.cls
       ChainOfResponsibility.next].
  unfold ChainOfResponsibility.println.
  destruct (decide (request = "complex")) as [->|Hcomplex]; simpl;
    by rewrite <-!app_assoc.
Qed.

(** The four requests of [Client.main]. *)
Example Chain_Client_main :
  let w0 := ChainOfResponsibility.mkWorld [] [] [] in
  match ChainOfResponsibility.Client_chain w0 with
  | Some (automatedHandler, _, _, w) =>
      (w ← ChainOfResponsibility.handleRequest 3 automatedHandler "basic" w;
       w ← ChainOfResponsibility.handleRequest 3 automatedHandler "intermediate" w;
       w ← ChainOfResponsibility.handleRequest 3 automatedHandler "complex" w;
       w ← ChainOfResponsibility.handleRequest 3 automatedHandler "unknown" w;
       Some (ChainOfResponsibility.console w, ChainOfResponsibility.handled w))
      = Some (["AutomatedHandler: Resolving basic request.";
               "AgentHandler: Resolving intermediate request.";
               "SupervisorHandler: Resolving complex request.";
               "SupervisorHandler: Unable to process the request."],
              [(0, "basic");
               (0, "intermediate"); (1, "intermediate");
               (0, "complex"); (1, "complex"); (2, "complex");
               (0, "unknown"); (1, "unknown"); (2, "unknown")])
  | None => False
  end.
Proof. reflexivity. Qed.

(** ** Flyweight *)

(** In a factory whose keys are objects of the store, the key
    [getCharacter] looks up is the object it has just allocated, which
    no key can be equal to: the lookup misses, the new object is put in
    the map and returned. *)
Lemma Flyweight_getCharacter_always_new (value size : Z) (font : string)
    (w : Flyweight.world) :
  Flyweight.wf w →
  Flyweight.getCharacter value size font w =
    (Some (length (Flyweight.heap w)),
     Flyweight.mkWorld
       (Flyweight.heap w ++ [Flyweight.mkCharacter value size font])
       (<[length (Flyweight.heap w) := length (Flyweight.heap w)]> (Flyweight.flyweights w)))
  ∧ Flyweight.wf (Flyweight.getCharacter value size font w).2.
Proof.
  intros Hwf.
  assert (Hmiss : Flyweight.flyweights w !! length (Flyweight.heap w) = None).
  { destruct (Flyweight.flyweights w !! length (Flyweight.heap w)) eqn:Hk; [|done].
    assert (length (Flyweight.heap w) < length (Flyweight.heap w)); [|lia].
    apply Hwf. by rewrite Hk. }
  assert (Heq : Flyweight.getCharacter value size font w =
    (Some (length (Flyweight.heap w)),
     Flyweight.mkWorld
       (Flyweight.heap w ++ [Flyweight.mkCharacter value size font])
       (<[length (Flyweight.heap w) := length (Flyweight.heap w)]>
          (Flyweight.flyweights w)))).
  { unfold Flyweight.getCharacter, Flyweight.containsKey, alloc.
    rewrite bool_decide_eq_false_2 by (rewrite Hmiss; by intros [? ?]).
    simpl. by rewrite lookup_insert_eq. }
  split; [exact Heq|].
  rewrite Heq. intros k Hk. simpl in *. rewrite length_app. simpl.
  destruct (decide (k = length (Flyweight.heap w))) as [->|Hne]; [lia|].
  rewrite lookup_insert_ne in Hk by done. apply Hwf in Hk. lia.
Qed.

(** C1, on the code.  In a new factory, two calls of [getCharacter] with
    the same arguments return two different objects with the same
    fields, and the map then holds two flyweights for one triple. *)
Theorem Flyweight_getCharacter_not_shared :
  let w0 := Flyweight.new_FlyweightFactory [] in
  let '(c1, w1) := Flyweight.getCharacter 97 12 "Arial" w0 in
  let '(c2, w2) := Flyweight.getCharacter 97 12 "Arial" w1 in
  c1 = Some 0 ∧ c2 = Some 1 ∧ c1 ≠ c2
  ∧ Flyweight.heap w2 !! 0 = Some (Flyweight.mkCharacter 97 12 "Arial")
  ∧ Flyweight.heap w2 !! 1 = Some (Flyweight.mkCharacter 97 12 "Arial")
  ∧ size (Flyweight.flyweights w2) = 2.
Proof. by split_and!. Qed.

(** ** State *)

(** C2, as the claim has it, fails: [play()] on a new player, which is
    stopped, leaves it playing. *)
Lemma StatePattern_play_changes_state :
  ¬ (∀ (o : StatePattern.op) (w : StatePattern.world),
       StatePattern.currentState (StatePattern.exec o w).1 =
       StatePattern.currentState w.1).
Proof.
  intros Hclaim.
  specialize (Hclaim StatePattern.Play (StatePattern.new_MediaPlayer, [])).
  discriminate Hclaim.
Qed.

(** C2, as the code has it.  The player is a machine with three states:
    a new player is stopped; every operation prints the line that
    [message] gives for the stored state and leaves the player in the
    state that [transition] gives for it, that is playing after [play],
    stopped after [stop], and after [pause] paused if it was playing and
    as it was otherwise; the stored state is left as it was in exactly
    four cases, [play] when playing, [pause] when paused or stopped,
    [stop] when stopped, and changes in the five others. *)
Theorem StatePattern_three_state_machine (o : StatePattern.op) (w : StatePattern.world) :
  StatePattern.currentState StatePattern.new_MediaPlayer = StatePattern.StoppedState
  ∧ StatePattern.currentState (StatePattern.exec o w).1 =
      StatePattern.transition o (StatePattern.currentState w.1)
  ∧ StatePattern.currentState (StatePattern.exec StatePattern.Play w).1 =
      StatePattern.PlayingState
  ∧ StatePattern.currentState (StatePattern.exec StatePattern.Stop w).1 =
      StatePattern.StoppedState
  ∧ StatePattern.currentState (StatePattern.exec StatePattern.Pause w).1 =
      match StatePattern.currentState w.1 with
      | StatePattern.PlayingState => StatePattern.PausedState
      | s => s
      end
  ∧ (StatePattern.exec o w).2 =
      w.2 ++ [StatePattern.message o (StatePattern.currentState w.1)]
  ∧ (StatePattern.currentState (StatePattern.exec o w).1 = StatePattern.currentState w.1
     ↔ (o, StatePattern.currentState w.1) ∈
         [(StatePattern.Play, StatePattern.PlayingState);
          (StatePattern.Pause, StatePattern.PausedState);
          (StatePattern.Pause, StatePattern.StoppedState);
          (StatePattern.Stop, StatePattern.StoppedState)]).
Proof.
  destruct w as [[s] c].
  split; [reflexivity|].
  split; [by destruct o, s|].
  split; [by destruct s|].
  split; [by destruct s|].
  split; [by destruct s|].
  destruct o, s; (split; [reflexivity|]); simpl;
    rewrite !elem_of_cons, elem_of_nil; split; intros H;
    try discriminate H; try tauto;
    repeat (destruct H as [H|H]; try discriminate H); done.
Qed.

(** The run of [Client.main]: stopped, playing, paused, playing,
    stopped, stopped. *)
Example StatePattern_Client_main :
  StatePattern.execs
    [StatePattern.Play; StatePattern.Pause; StatePattern.Play; StatePattern.Stop;
     StatePattern.Pause]
    (StatePattern.new_MediaPlayer, [])
  = (StatePattern.mkMediaPlayer StatePattern.StoppedState,
     ["Starting playback..."; "Pausing playback..."; "Resuming playback...";
      "Stopping playback..."; "Cannot pause. The media player is stopped."]).
Proof. reflexivity. Qed.

(** * Further properties of the snippets *)

(** ** Decorator: what a stack of decorators prints *)

(** X1. Whatever the stack of decorators, a window prints the line of
    the simple window first and then one border line for each
    [BorderedWindowDecorator] layer; plain [WindowDecorator] layers add
    nothing. *)
Theorem Decorator_output_counts_borders (w : Decorator.Window) (console : list string) :
  Decorator.draw w console =
    console ++ "Drawing a simple window" ::
      replicate (Decorator.borders w) "Drawing a border around the window".
Proof.
  revert console. induction w as [|w IH|w IH]; intros console; simpl.
  - done.
  - apply IH.
  - unfold Decorator.drawBorder. rewrite IH. rewrite <-app_assoc. simpl.
    do 2 f_equal. generalize (Decorator.borders w). intros n.
    induction n as [|n IHn]; simpl; [done|]. by rewrite IHn.
Qed.

(** ** Iterator: the traversal loop *)

Lemma Iterator_main_loop_from (n k : nat) (it : Iterator.PlaylistIterator)
    (console : list string) :
  Iterator.wf it →
  length (Iterator.songs it) = Z.to_nat (Iterator.position it) + n →
  Iterator.main_loop (S n + k) it console =
    Iterator.Done
      (console ++ map (λ s, "Now playing: " +:+ s)
                      (drop (Z.to_nat (Iterator.position it)) (Iterator.songs it)))
      {| Iterator.songs := Iterator.songs it;
         Iterator.position := Z.of_nat (length (Iterator.songs it)) |}.
Proof.
  revert it console. induction n as [|n IH]; intros it console Hwf Hlen.
  - pose proof Hwf as [[Hp0 Hp1] Hmax].
    assert (Hexh : Iterator.hasNext it = false).
    { apply Iterator_hasNext_false. lia. }
    simpl. rewrite Hexh. rewrite drop_ge by lia. rewrite app_nil_r.
    destruct it as [ss p]. simpl in *. do 2 f_equal. lia.
  - pose proof Hwf as [[Hp0 Hp1] Hmax].
    assert (Hnext : Iterator.hasNext it = true).
    { apply Iterator_hasNext_true. lia. }
    destruct (Iterator_next_inside it Hwf Hnext) as (s & Hs & Heq).
    pose proof (Iterator_next_wf it Hwf) as Hwf'. rewrite Heq in Hwf'. simpl in Hwf'.
    change (S (S n) + k) with (S (S n + k)).
    cbn [Iterator.main_loop]. rewrite Hnext, Heq.
    rewrite IH; simpl; [|done|lia].
    replace (Z.to_nat (Iterator.position it + 1)) with (S (Z.to_nat (Iterator.position it)))
      by lia.
    rewrite (drop_S _ _ _ Hs). simpl. by rewrite <-app_assoc.
Qed.

(** X2. The loop of [Client.main] over a new iterator of a playlist ends
    normally, having printed "Now playing: " and the song for every song
    of the playlist, once each and in playlist order; the iterator it
    leaves is exhausted, and a further [next()] raises. *)
Theorem Iterator_main_loop_visits_all (songs console : list string) (k : nat) :
  (Z.of_nat (length songs) < 2147483648)%Z →
  let final := Iterator.mkIt songs (Z.of_nat (length songs)) in
  Iterator.main_loop (S (length songs) + k)
    (Iterator.createIterator (Iterator.mkPlaylist songs)) console =
    Iterator.Done (console ++ map (λ s, "Now playing: " +:+ s) songs) final
  ∧ Iterator.hasNext final = false
  ∧ Iterator.next final =
      (Iterator.Raise (Iterator.IllegalStateException "No more songs in the playlist."),
       final).
Proof.
  intros Hlen final.
  assert (Hexh : Iterator.hasNext final = false).
  { apply Iterator_hasNext_false. simpl. lia. }
  split_and!.
  - rewrite (Iterator_main_loop_from (length songs) k); simpl; [done| |lia].
    by apply Iterator_new_wf.
  - done.
  - unfold Iterator.next. by rewrite Hexh.
Qed.

Lemma Iterator_main_loop_visits_all_witness :
  let songs := ["Song A"; "Song B"; "Song C"] in
  (Z.of_nat (length songs) < 2147483648)%Z ∧
  let final := Iterator.mkIt songs (Z.of_nat (length songs)) in
  Iterator.main_loop (S (length songs) + 0)
    (Iterator.createIterator (Iterator.mkPlaylist songs)) [] =
    Iterator.Done ([] ++ map (λ s, "Now playing: " +:+ s) songs) final
  ∧ Iterator.hasNext final = false
  ∧ Iterator.next final =
      (Iterator.Raise (Iterator.IllegalStateException "No more songs in the playlist."),
       final).
Proof.
  intros songs.
  assert (Hlen : (Z.of_nat (length songs) < 2147483648)%Z) by (simpl; lia).
  split; [exact Hlen|].
  exact (Iterator_main_loop_visits_all songs [] 0 Hlen).
Defined.

(** ** Observer: prices, detaching, printed lines *)

(** X3. [setPrice] goes through when the observers are objects of the
    store; afterwards [getPrice] of that stock is the price set, the
    price of every other stock is what it was, the observers are the
    same ones, and each of them has been sent the stock name and the new
    price.  A stock that was never priced reads as [0.0]. *)
Theorem Observer_setPrice_getPrice {double : Type} (zero : double)
    (toString : double → string) (s : Observer.StockMarket) (w : Observer.world)
    (stockName : string) (price : double) :
  Observer.observers_alive s w →
  ∃ s' w',
    Observer.setPrice toString stockName price s w = Some (s', w')
    ∧ Observer.getPrice zero stockName s' = price
    ∧ (∀ other, other ≠ stockName →
         Observer.getPrice zero other s' = Observer.getPrice zero other s)
    ∧ (∀ other, Observer.stockPrices s !! other = None →
         Observer.getPrice zero other s = zero)
    ∧ Observer.observers s' = Observer.observers s
    ∧ Observer.updates w' =
        Observer.updates w ++ map (λ o, (o, stockName, price)) (Observer.observers s).
Proof.
  intros Halive.
  destruct (Observer_for_each_spec toString (Observer.observers s) stockName price w Halive)
    as (w' & Hrun & _ & Hlog).
  eexists _, w'. split_and!.
  - unfold Observer.setPrice, Observer.notifyObservers. simpl. by rewrite Hrun.
  - unfold Observer.getPrice. simpl. by rewrite lookup_insert_eq.
  - intros other Hne. unfold Observer.getPrice. simpl.
    by rewrite lookup_insert_ne.
  - intros other Hnone. unfold Observer.getPrice. by rewrite Hnone.
  - done.
  - done.
Qed.

Lemma Observer_setPrice_getPrice_witness :
  let toString := λ _ : Z, "150.0" in
  let s := Observer.history [Observer.Attach 0; Observer.Attach 1] in
  let w := Observer.mkWorld [Observer.mkTrader "Alice"; Observer.mkTrader "Bob"] [] [] in
  Observer.observers_alive s w ∧
  ∃ s' w',
    Observer.setPrice toString "AAPL" 150%Z s w = Some (s', w')
    ∧ Observer.getPrice 0%Z "AAPL" s' = 150%Z
    ∧ (∀ other, other ≠ "AAPL" →
         Observer.getPrice 0%Z other s' = Observer.getPrice 0%Z other s)
    ∧ (∀ other, Observer.stockPrices s !! other = None →
         Observer.getPrice 0%Z other s = 0%Z)
    ∧ Observer.observers s' = Observer.observers s
    ∧ Observer.updates w' =
        Observer.updates w ++ map (λ o, (o, "AAPL", 150%Z)) (Observer.observers s).
Proof.
  intros toString s w.
  assert (Halive : Observer.observers_alive s w).
  { intros o Ho. apply elem_of_cons in Ho as [->|Ho]; [by eexists|].
    apply list_elem_of_singleton in Ho as ->. by eexists. }
  split; [exact Halive|].
  exact (Observer_setPrice_getPrice 0%Z toString s w "AAPL" 150%Z Halive).
Defined.

Lemma Observer_filter_absent (o : ref) (os : list ref) :
  o ∉ os → filter (λ x, x ≠ o) os = os.
Proof.
  induction os as [|x os IH]; intros Ho; [done|].
  apply not_elem_of_cons in Ho as [Hne Ho].
  rewrite filter_cons_True by congruence. by rewrite IH.
Qed.

Lemma Observer_remove_filter (o : ref) (os : list ref) :
  NoDup os → Observer.ArrayList_remove o os = filter (λ x, x ≠ o) os.
Proof.
  induction 1 as [|x os Hx Hnd IH]; [done|]. simpl.
  destruct (decide (x = o)) as [->|Hne].
  - rewrite filter_cons_False by (intros Hne; by apply Hne).
    by rewrite Observer_filter_absent.
  - rewrite filter_cons_True by done. by rewrite IH.
Qed.

(** X4. In a subject that holds no observer twice, [detach(o)] leaves
    the other observers in their order and takes [o] out: the next
    notification goes through, calls every remaining observer once and
    does not call [o]. *)
Theorem Observer_detached_not_notified {double : Type} (toString : double → string)
    (s : Observer.StockMarket) (w : Observer.world) (o : ref)
    (stockName : string) (price : double) :
  NoDup (Observer.observers s) →
  Observer.observers_alive s w →
  Observer.observers (Observer.detach o s) = filter (λ x, x ≠ o) (Observer.observers s)
  ∧ ∃ w',
      Observer.notifyObservers toString (Observer.detach o s) stockName price w = Some w'
      ∧ Observer.updates_on o (Observer.updates w') =
          Observer.updates_on o (Observer.updates w)
      ∧ (∀ x, x ≠ o → x ∈ Observer.observers s →
           Observer.updates_on x (Observer.updates w') =
           Observer.updates_on x (Observer.updates w) + 1).
Proof.
  intros Hnd Halive.
  assert (Hobs : Observer.observers (Observer.detach o s)
                 = filter (λ x, x ≠ o) (Observer.observers s)).
  { simpl. by apply Observer_remove_filter. }
  split; [exact Hobs|].
  assert (Halive' : ∀ x, x ∈ Observer.observers (Observer.detach o s) →
                         is_Some (Observer.heap w !! x)).
  { intros x Hx. rewrite Hobs in Hx. apply list_elem_of_filter in Hx as [_ Hx].
    by apply Halive. }
  destruct (Observer_for_each_spec toString _ stockName price w Halive')
    as (w' & Hrun & _ & Hlog).
  exists w'. split_and!; [exact Hrun| |].
  - rewrite Hlog, Observer_updates_on_app, Observer_updates_on_map.
    rewrite Observer_count_absent; [lia|].
    rewrite Hobs. intros Hin. apply list_elem_of_filter in Hin as [Hne _]. by apply Hne.
  - intros x Hne Hx. rewrite Hlog, Observer_updates_on_app, Observer_updates_on_map.
    rewrite Observer_count_NoDup; [done| |].
    + rewrite Hobs. by apply NoDup_filter.
    + rewrite Hobs. apply list_elem_of_filter. by split.
Qed.

Lemma Observer_detached_not_notified_witness :
  let toString := λ _ : Z, "155.0" in
  let s := Observer.history [Observer.Attach 0; Observer.Attach 1] in
  let w := Observer.mkWorld [Observer.mkTrader "Alice"; Observer.mkTrader "Bob"] [] [] in
  (NoDup (Observer.observers s) ∧ Observer.observers_alive s w) ∧
  (Observer.observers (Observer.detach 0 s) = filter (λ x, x ≠ 0) (Observer.observers s)
   ∧ ∃ w',
      Observer.notifyObservers toString (Observer.detach 0 s) "AAPL" 155%Z w = Some w'
      ∧ Observer.updates_on 0 (Observer.updates w') =
          Observer.updates_on 0 (Observer.updates w)
      ∧ (∀ x, x ≠ 0 → x ∈ Observer.observers s →
           Observer.updates_on x (Observer.updates w') =
           Observer.updates_on x (Observer.updates w) + 1)).
Proof.
  intros toString s w.
  assert (Hnd : NoDup (Observer.observers s)).
  { apply (NoDup_cons_2 0 [1]); [|apply (NoDup_cons_2 1 []); [|apply NoDup_nil_2]].
    - intros Hin. apply list_elem_of_singleton in Hin. discriminate Hin.
    - apply not_elem_of_nil. }
  assert (Halive : Observer.observers_alive s w).
  { intros o Ho. apply elem_of_cons in Ho as [->|Ho]; [by eexists|].
    apply list_elem_of_singleton in Ho as ->. by eexists. }
  split; [by split|].
  exact (Observer_detached_not_notified toString s w 0 "AAPL" 155%Z Hnd Halive).
Defined.

Lemma Observer_remove_app_last (o : ref) (os : list ref) :
  Observer.ArrayList_remove o (os ++ [o]) =
    if decide (o ∈ os) then Observer.ArrayList_remove o os ++ [o] else os.
Proof.
  induction os as [|x os IH]; cbn [app Observer.ArrayList_remove].
  - destruct (decide (o = o)) as [_|Hne]; [|done].
    destruct (decide (o ∈ [])) as [Hin|_]; [by apply elem_of_nil in Hin|done].
  - destruct (decide (x = o)) as [->|Hne].
    + destruct (decide (o ∈ o :: os)) as [_|Hnin]; [done|].
      exfalso. apply Hnin. left.
    + rewrite IH. destruct (decide (o ∈ os)) as [Hin|Hnin].
      * destruct (decide (o ∈ x :: os)) as [_|Hnin]; [done|].
        exfalso. apply Hnin. by right.
      * destruct (decide (o ∈ x :: os)) as [Hin|_]; [|done].
        apply elem_of_cons in Hin as [->|Hin]; done.
Qed.

Lemma Observer_remove_first (o : ref) (l1 l2 : list ref) :
  o ∉ l1 → Observer.ArrayList_remove o (l1 ++ o :: l2) = l1 ++ l2.
Proof.
  induction l1 as [|x l1 IH]; intros Hno; simpl.
  - by rewrite decide_True.
  - apply not_elem_of_cons in Hno as [Hne Hno].
    rewrite decide_False by congruence. by rewrite IH.
Qed.

Lemma Observer_snoc_is_cons (o : ref) (l : list ref) :
  l ++ [o] = o :: l → l = replicate (length l) o.
Proof.
  induction l as [|x l IH]; intros Heq; [done|].
  simpl in Heq. injection Heq as -> Heq. simpl. f_equal. by apply IH.
Qed.

(** X5. [attach(o)] followed by [detach(o)] gives the subject back when
    [o] was not attached before.  When [o] was already attached,
    [detach] takes out the earliest entry of [o] and the new entry stays
    at the end of the list; the subject is then as before exactly when
    nothing but entries of [o] came after that earliest entry (as when
    the only entry of [o] was the last one), and otherwise [o] has moved
    to the end of the notification order.  [detach] of an observer that
    is not attached changes nothing. *)
Theorem Observer_attach_detach {double : Type}
    (s : Observer.StockMarket (double := double)) (o : ref) :
  (o ∉ Observer.observers s → Observer.detach o (Observer.attach o s) = s)
  ∧ (o ∈ Observer.observers s →
     Observer.observers (Observer.detach o (Observer.attach o s)) =
       Observer.ArrayList_remove o (Observer.observers s) ++ [o])
  ∧ (o ∈ Observer.observers s →
     (Observer.detach o (Observer.attach o s) = s ↔
      ∃ l1 n, Observer.observers s = l1 ++ replicate (S n) o ∧ (o ∉ l1)))
  ∧ (o ∉ Observer.observers s → Observer.detach o s = s).
Proof.
  destruct s as [os prices]. unfold Observer.detach, Observer.attach. simpl.
  split_and!.
  - intros Hno. rewrite Observer_remove_app_last. by rewrite decide_False.
  - intros Hin. rewrite Observer_remove_app_last. by rewrite decide_True.
  - intros Hin. rewrite Observer_remove_app_last. rewrite decide_True by done.
    split.
    + intros Heq. injection Heq as Heq.
      destruct (Observer_remove_spec o os) as [[Hno _]|(l1 & l2 & Hos & Hno & Hrem)];
        [done|].
      rewrite Hrem, Hos in Heq. rewrite <-app_assoc in Heq.
      apply app_inv_head in Heq. apply Observer_snoc_is_cons in Heq.
      exists l1, (length l2). split; [|done]. simpl. by rewrite <-Heq.
    + intros (l1 & n & Hos & Hno). f_equal. rewrite Hos. simpl.
      rewrite (Observer_remove_first o l1 (replicate n o) Hno).
      rewrite <-app_assoc. f_equal. symmetry. apply replicate_cons_app.
  - intros Hno. destruct (Observer_remove_spec o os) as [[_ ->]|(l1 & l2 & -> & _ & _)];
      [done|].
    exfalso. apply Hno. apply elem_of_app. right. left.
Qed.

Lemma Observer_attach_detach_witness :
  let s := Observer.history (double := Z) [Observer.Attach 0; Observer.Attach 1] in
  let t := Observer.history (double := Z) [Observer.Attach 1; Observer.Attach 0] in
  ((2 ∉ Observer.observers s) ∧ 0 ∈ Observer.observers s ∧ 0 ∈ Observer.observers t) ∧
  Observer.detach 2 (Observer.attach 2 s) = s ∧
  Observer.observers (Observer.detach 0 (Observer.attach 0 s)) = [1; 0] ∧
  Observer.detach 0 (Observer.attach 0 t) = t ∧
  Observer.detach 2 s = s.
Proof.
  intros s t.
  assert (H2 : 2 ∉ Observer.observers s).
  { intros Hin. apply elem_of_cons in Hin as [Hin|Hin]; [discriminate Hin|].
    apply list_elem_of_singleton in Hin. discriminate Hin. }
  assert (H0 : 0 ∈ Observer.observers s) by left.
  assert (Ht : 0 ∈ Observer.observers t) by (right; left).
  split; [by split_and!|].
  destruct (Observer_attach_detach s 2) as (Hround & _ & _ & Hnop).
  destruct (Observer_attach_detach s 0) as (_ & Hmove & _ & _).
  destruct (Observer_attach_detach t 0) as (_ & _ & Hsame & _).
  split_and!; [exact (Hround H2)|exact (Hmove H0)| |exact (Hnop H2)].
  apply (Hsame Ht). exists [1], 0. split; [reflexivity|].
  intros Hin. apply list_elem_of_singleton in Hin. discriminate Hin.
Defined.

Lemma Observer_for_each_console {double : Type} (toString : double → string)
    (h : list Observer.Trader) (os : list ref) (names : list string)
    (stockName : string) (price : double) :
  Forall2 (λ o name, h !! o = Some (Observer.mkTrader name)) os names →
  ∀ w w' : Observer.world,
    Observer.heap w = h →
    Observer.for_each toString os stockName price w = Some w' →
    Observer.console w' =
      Observer.console w ++
        map (λ name, "Trader " +:+ name +:+ " notified: " +:+ stockName +:+
                     " price updated to " +:+ toString price) names.
Proof.
  induction 1 as [|o name os names Ho Hall IH]; intros w w' Hh Hrun; simpl in *.
  - simplify_eq. by rewrite app_nil_r.
  - unfold Observer.update in Hrun. rewrite Hh, Ho in Hrun. simpl in Hrun.
    rewrite (IH (Observer.Trader_update toString o name stockName price w) w' Hh Hrun).
    simpl. by rewrite <-app_assoc.
Qed.

(** X6. What a notification prints: one line per entry of the observers
    list, in list order, each naming the trader, the stock and the
    price: "Trader <name> notified: <stock> price updated to <price>". *)
Theorem Observer_notify_prints {double : Type} (toString : double → string)
    (s : Observer.StockMarket) (w : Observer.world) (names : list string)
    (stockName : string) (price : double) :
  Forall2 (λ o name, Observer.heap w !! o = Some (Observer.mkTrader name))
    (Observer.observers s) names →
  ∃ w',
    Observer.notifyObservers toString s stockName price w = Some w'
    ∧ Observer.console w' =
        Observer.console w ++
          map (λ name, "Trader " +:+ name +:+ " notified: " +:+ stockName +:+
                       " price updated to " +:+ toString price) names.
Proof.
  intros Hnames.
  assert (Halive : Observer.observers_alive s w).
  { intros o Ho. apply list_elem_of_lookup in Ho as [i Hi].
    destruct (Forall2_lookup_l _ _ _ _ _ Hnames Hi) as (name & _ & Hname).
    by eexists. }
  destruct (Observer_for_each_spec toString (Observer.observers s) stockName price w Halive)
    as (w' & Hrun & _ & _).
  exists w'. split; [exact Hrun|].
  by apply (Observer_for_each_console toString (Observer.heap w)
              (Observer.observers s) names stockName price Hnames w w').
Qed.

Lemma Observer_notify_prints_witness :
  let toString := λ _ : Z, "150.0" in
  let s := Observer.history [Observer.Attach 0; Observer.Attach 1] in
  let w := Observer.mkWorld [Observer.mkTrader "Alice"; Observer.mkTrader "Bob"] [] [] in
  Forall2 (λ o name, Observer.heap w !! o = Some (Observer.mkTrader name))
    (Observer.observers s) ["Alice"; "Bob"] ∧
  ∃ w',
    Observer.notifyObservers toString s "AAPL" 150%Z w = Some w'
    ∧ Observer.console w' =
        Observer.console w ++
          map (λ name, "Trader " +:+ name +:+ " notified: " +:+ "AAPL" +:+
                       " price updated to " +:+ toString 150%Z) ["Alice"; "Bob"].
Proof.
  intros toString s w.
  assert (Hnames : Forall2 (λ o name, Observer.heap w !! o = Some (Observer.mkTrader name))
                     (Observer.observers s) ["Alice"; "Bob"])
    by (repeat constructor).
  split; [exact Hnames|].
  exact (Observer_notify_prints toString s w ["Alice"; "Bob"] "AAPL" 150%Z Hnames).
Defined.

(** ** Builder: the parts are independent, the store is left alone *)

Lemma Builder_invoke_spec (brick : bool) (w : Builder.world) (b house : ref)
    (m : Builder.method) (f s r i : option string) :
  Builder.heap w !! b = Some (Builder.builder_object brick house) →
  Builder.heap w !! house = Some (Builder.House f s r i) →
  Builder.invoke b m w =
    Some (Builder.mkWorld
            (<[house :=
                 Builder.House
                   (if decide (m = Builder.buildFoundation)
                    then Some (Builder.material brick Builder.buildFoundation) else f)
                   (if decide (m = Builder.buildStructure)
                    then Some (Builder.material brick Builder.buildStructure) else s)
                   (if decide (m = Builder.buildRoof)
                    then Some (Builder.material brick Builder.buildRoof) else r)
                   (if decide (m = Builder.buildInterior)
                    then Some (Builder.material brick Builder.buildInterior) else i)]>
               (Builder.heap w))
            (Builder.invoked w ++ [(b, m)])).
Proof.
  intros Hb Hh. unfold Builder.invoke. rewrite Hb.
  destruct brick, m; simpl;
    unfold Builder.setFoundation, Builder.setStructure, Builder.setRoof,
      Builder.setInterior; by rewrite Hh.
Qed.

Lemma Builder_field_step (x m : Builder.method) (ms : list Builder.method)
    (mat old : option string) :
  (if bool_decide (x ∈ ms) then mat else if decide (m = x) then mat else old)
  = if bool_decide (x ∈ m :: ms) then mat else old.
Proof.
  destruct (decide (m = x)) as [->|Hne].
  - rewrite (bool_decide_eq_true_2 (x ∈ x :: ms)) by left. by case_bool_decide.
  - destruct (decide (x ∈ ms)) as [Hin|Hnin].
    + rewrite !bool_decide_eq_true_2; [done|by right|done].
    + rewrite !bool_decide_eq_false_2; [done| |done].
      rewrite not_elem_of_cons. split; [congruence|done].
Qed.

Lemma Builder_invokes_spec (brick : bool) (b house : ref) (ms : list Builder.method) :
  ∀ (w : Builder.world) (f s r i : option string),
  Builder.heap w !! b = Some (Builder.builder_object brick house) →
  Builder.heap w !! house = Some (Builder.House f s r i) →
  Builder.invokes b ms w =
    Some (Builder.mkWorld
            (<[house :=
                 Builder.House
                   (if bool_decide (Builder.buildFoundation ∈ ms)
                    then Some (Builder.material brick Builder.buildFoundation) else f)
                   (if bool_decide (Builder.buildStructure ∈ ms)
                    then Some (Builder.material brick Builder.buildStructure) else s)
                   (if bool_decide (Builder.buildRoof ∈ ms)
                    then Some (Builder.material brick Builder.buildRoof) else r)
                   (if bool_decide (Builder.buildInterior ∈ ms)
                    then Some (Builder.material brick Builder.buildInterior) else i)]>
               (Builder.heap w))
            (Builder.invoked w ++ map (λ m, (b, m)) ms)).
Proof.
  induction ms as [|m ms IH]; intros w f s r i Hb Hh.
  - simpl. destruct w as [h l]. simpl in *.
    rewrite (list_insert_id h house _ Hh). by rewrite app_nil_r.
  - assert (Hne : b ≠ house).
    { intros ->. rewrite Hh in Hb. by destruct brick. }
    pose proof (lookup_lt_Some _ _ _ Hh) as Hlt.
    cbn [Builder.invokes]. rewrite (Builder_invoke_spec brick w b house m f s r i Hb Hh).
    cbn [mbind option_bind].
    set (f1 := if decide (m = Builder.buildFoundation)
               then Some (Builder.material brick Builder.buildFoundation) else f).
    set (s1 := if decide (m = Builder.buildStructure)
               then Some (Builder.material brick Builder.buildStructure) else s).
    set (r1 := if decide (m = Builder.buildRoof)
               then Some (Builder.material brick Builder.buildRoof) else r).
    set (i1 := if decide (m = Builder.buildInterior)
               then Some (Builder.material brick Builder.buildInterior) else i).
    set (w1 := Builder.mkWorld (<[house := Builder.House f1 s1 r1 i1]> (Builder.heap w))
                 (Builder.invoked w ++ [(b, m)])).
    assert (Hb1 : Builder.heap w1 !! b = Some (Builder.builder_object brick house)).
    { unfold w1. cbn [Builder.heap]. by rewrite list_lookup_insert_ne. }
    assert (Hh1 : Builder.heap w1 !! house = Some (Builder.House f1 s1 r1 i1)).
    { unfold w1. cbn [Builder.heap]. by apply list_lookup_insert_eq. }
    rewrite (IH w1 f1 s1 r1 i1 Hb1 Hh1). unfold w1. cbn [Builder.heap Builder.invoked map].
    rewrite list_insert_insert_eq, <-app_assoc. unfold f1, s1, r1, i1.
    by rewrite !Builder_field_step.
Qed.

Lemma Builder_constructHouse_invokes (w : Builder.world) (d b : ref) :
  Builder.heap w !! d = Some (Builder.ConstructionDirector b) →
  Builder.constructHouse d w =
    Builder.invokes b [Builder.buildFoundation; Builder.buildStructure;
                       Builder.buildRoof; Builder.buildInterior] w.
Proof.
  intros Hd. unfold Builder.constructHouse. rewrite Hd. simpl.
  destruct (Builder.invoke b Builder.buildFoundation w) as [w1|]; [simpl|done].
  destruct (Builder.invoke b Builder.buildStructure w1) as [w2|]; [simpl|done].
  destruct (Builder.invoke b Builder.buildRoof w2) as [w3|]; [simpl|done].
  by destruct (Builder.invoke b Builder.buildInterior w3).
Qed.

(** X7. The build methods are independent of each other and of their
    order: after any sequence of build calls on a builder, a field of
    its house holds the builder's material for that part if the method
    of the part is in the sequence, and what it held before if it is
    not.  So a sequence with the four methods, in any order and with
    repetitions, always gives the same complete house. *)
Theorem Builder_parts_independent (brick : bool) (w : Builder.world) (b house : ref)
    (ms : list Builder.method) (f s r i : option string) :
  Builder.heap w !! b = Some (Builder.builder_object brick house) →
  Builder.heap w !! house = Some (Builder.House f s r i) →
  ∃ w',
    Builder.invokes b ms w = Some w'
    ∧ Builder.invoked w' = Builder.invoked w ++ map (λ m, (b, m)) ms
    ∧ Builder.heap w' !! house =
        Some (Builder.House
                (if bool_decide (Builder.buildFoundation ∈ ms)
                 then Some (Builder.material brick Builder.buildFoundation) else f)
                (if bool_decide (Builder.buildStructure ∈ ms)
                 then Some (Builder.material brick Builder.buildStructure) else s)
                (if bool_decide (Builder.buildRoof ∈ ms)
                 then Some (Builder.material brick Builder.buildRoof) else r)
                (if bool_decide (Builder.buildInterior ∈ ms)
                 then Some (Builder.material brick Builder.buildInterior) else i)).
Proof.
  intros Hb Hh. pose proof (lookup_lt_Some _ _ _ Hh) as Hlt.
  eexists. split_and!.
  - by apply (Builder_invokes_spec brick b house ms w f s r i).
  - done.
  - simpl. by apply list_lookup_insert_eq.
Qed.

Lemma Builder_parts_independent_witness :
  let w := Builder.mkWorld
             [Builder.House None None None None; Builder.WoodenHouseBuilder 0] [] in
  let ms := [Builder.buildRoof; Builder.buildFoundation; Builder.buildRoof] in
  (Builder.heap w !! 1 = Some (Builder.builder_object false 0) ∧
   Builder.heap w !! 0 = Some (Builder.House None None None None)) ∧
  ∃ w',
    Builder.invokes 1 ms w = Some w'
    ∧ Builder.invoked w' = Builder.invoked w ++ map (λ m, (1, m)) ms
    ∧ Builder.heap w' !! 0 =
        Some (Builder.House (Some "Wooden Piles") None (Some "Wooden Shingles") None).
Proof.
  intros w ms. split; [by split|].
  exact (Builder_parts_independent false w 1 0 ms None None None None eq_refl eq_refl).
Defined.

(** X8. [constructHouse()] allocates nothing and writes to one object
    only, the house of the director's builder, for a builder of either
    class: every other object of the store is as before, the builder
    still holds the same house, and the house ends complete with the
    builder's four materials whatever it held.  Running the director
    again changes nothing in the store. *)
Theorem Builder_constructHouse_frame (brick : bool) (w : Builder.world)
    (d b house : ref) (f s r i : option string) :
  Builder.heap w !! d = Some (Builder.ConstructionDirector b) →
  Builder.heap w !! b = Some (Builder.builder_object brick house) →
  Builder.heap w !! house = Some (Builder.House f s r i) →
  ∃ w',
    Builder.constructHouse d w = Some w'
    ∧ length (Builder.heap w') = length (Builder.heap w)
    ∧ (∀ x, x ≠ house → Builder.heap w' !! x = Builder.heap w !! x)
    ∧ Builder.getHouse b w = Some house
    ∧ Builder.getHouse b w' = Some house
    ∧ Builder.heap w' !! house =
        Some (Builder.House
                (Some (Builder.material brick Builder.buildFoundation))
                (Some (Builder.material brick Builder.buildStructure))
                (Some (Builder.material brick Builder.buildRoof))
                (Some (Builder.material brick Builder.buildInterior)))
    ∧ ∃ w'', Builder.constructHouse d w' = Some w''
             ∧ Builder.heap w'' = Builder.heap w'.
Proof.
  intros Hd Hb Hh. pose proof (lookup_lt_Some _ _ _ Hh) as Hlt.
  assert (Hbh : b ≠ house) by (intros ->; rewrite Hh in Hb; by destruct brick).
  assert (Hdh : d ≠ house) by (intros ->; by rewrite Hh in Hd).
  set (ms := [Builder.buildFoundation; Builder.buildStructure;
              Builder.buildRoof; Builder.buildInterior]).
  set (full := Builder.House
                (Some (Builder.material brick Builder.buildFoundation))
                (Some (Builder.material brick Builder.buildStructure))
                (Some (Builder.material brick Builder.buildRoof))
                (Some (Builder.material brick Builder.buildInterior))).
  set (w' := Builder.mkWorld (<[house := full]> (Builder.heap w))
               (Builder.invoked w ++ map (λ m, (b, m)) ms)).
  assert (Hrun : Builder.constructHouse d w = Some w').
  { rewrite (Builder_constructHouse_invokes w d b Hd). fold ms.
    by rewrite (Builder_invokes_spec brick b house ms w f s r i Hb Hh). }
  assert (Hd' : Builder.heap w' !! d = Some (Builder.ConstructionDirector b)).
  { unfold w'. simpl. by rewrite list_lookup_insert_ne. }
  assert (Hb' : Builder.heap w' !! b = Some (Builder.builder_object brick house)).
  { unfold w'. simpl. by rewrite list_lookup_insert_ne. }
  assert (Hh' : Builder.heap w' !! house = Some full).
  { unfold w'. simpl. by apply list_lookup_insert_eq. }
  exists w'. split_and!.
  - exact Hrun.
  - unfold w'. simpl. apply length_insert.
  - intros x Hx. unfold w'. simpl. by apply list_lookup_insert_ne.
  - unfold Builder.getHouse. rewrite Hb. by destruct brick.
  - unfold Builder.getHouse. rewrite Hb'. by destruct brick.
  - exact Hh'.
  - eexists. split.
    + rewrite (Builder_constructHouse_invokes w' d b Hd'). fold ms.
      by rewrite (Builder_invokes_spec brick b house ms w' _ _ _ _ Hb' Hh').
    + simpl. by rewrite list_insert_insert_eq.
Qed.

Lemma Builder_constructHouse_frame_witness :
  let w := Builder.mkWorld
             [Builder.House None (Some "Straw") None None; Builder.WoodenHouseBuilder 0;
              Builder.ConstructionDirector 1] [] in
  (Builder.heap w !! 2 = Some (Builder.ConstructionDirector 1) ∧
   Builder.heap w !! 1 = Some (Builder.builder_object false 0) ∧
   Builder.heap w !! 0 = Some (Builder.House None (Some "Straw") None None)) ∧
  ∃ w',
    Builder.constructHouse 2 w = Some w'
    ∧ length (Builder.heap w') = length (Builder.heap w)
    ∧ (∀ x, x ≠ 0 → Builder.heap w' !! x = Builder.heap w !! x)
    ∧ Builder.getHouse 1 w = Some 0
    ∧ Builder.getHouse 1 w' = Some 0
    ∧ Builder.heap w' !! 0 =
        Some (Builder.House (Some "Wooden Piles") (Some "Wood and Bamboo")
                (Some "Wooden Shingles") (Some "Wooden Panels"))
    ∧ ∃ w'', Builder.constructHouse 2 w' = Some w''
             ∧ Builder.heap w'' = Builder.heap w'.
Proof.
  intros w. split; [by split_and!|].
  exact (Builder_constructHouse_frame false w 2 1 0 None (Some "Straw") None None
           eq_refl eq_refl eq_refl).
Defined.

Lemma Builder_new_wooden_spec (h : list Builder.obj) (l : list (ref * Builder.method)) :
  Builder.new_WoodenHouseBuilder (Builder.mkWorld h l) =
    (S (length h),
     Builder.mkWorld
       (h ++ [Builder.House None None None None; Builder.WoodenHouseBuilder (length h)]) l).
Proof.
  unfold Builder.new_WoodenHouseBuilder, Builder.new_House, alloc.
  cbn [Builder.heap Builder.invoked]. rewrite length_app, <-app_assoc. cbn [length app].
  by replace (length h + 1) with (S (length h)) by lia.
Qed.

Lemma Builder_new_brick_spec (h : list Builder.obj) (l : list (ref * Builder.method)) :
  Builder.new_BrickHouseBuilder (Builder.mkWorld h l) =
    (S (length h),
     Builder.mkWorld
       (h ++ [Builder.House None None None None; Builder.BrickHouseBuilder (length h)]) l).
Proof.
  unfold Builder.new_BrickHouseBuilder, Builder.new_House, alloc.
  cbn [Builder.heap Builder.invoked]. rewrite length_app, <-app_assoc. cbn [length app].
  by replace (length h + 1) with (S (length h)) by lia.
Qed.

Lemma Builder_new_director_spec (h : list Builder.obj) (l : list (ref * Builder.method))
    (x y : Builder.obj) (b : ref) :
  Builder.new_ConstructionDirector b (Builder.mkWorld (h ++ [x; y]) l) =
    (S (S (length h)),
     Builder.mkWorld (h ++ [x; y; Builder.ConstructionDirector b]) l).
Proof.
  unfold Builder.new_ConstructionDirector, alloc.
  cbn [Builder.heap Builder.invoked]. rewrite length_app, <-app_assoc. cbn [length app].
  by replace (length h + 2) with (S (S (length h))) by lia.
Qed.

(** A new builder with its new house and a new director, at the end of a
    store: what [constructHouse], [getHouse] and [toString] give. *)
Lemma Builder_segment (brick : bool) (h : list Builder.obj)
    (l : list (ref * Builder.method)) :
  let n := length h in
  let full := Builder.House
                (Some (Builder.material brick Builder.buildFoundation))
                (Some (Builder.material brick Builder.buildStructure))
                (Some (Builder.material brick Builder.buildRoof))
                (Some (Builder.material brick Builder.buildInterior)) in
  let w3 := Builder.mkWorld
              (h ++ [full; Builder.builder_object brick n;
                     Builder.ConstructionDirector (S n)])
              (l ++ [(S n, Builder.buildFoundation); (S n, Builder.buildStructure);
                     (S n, Builder.buildRoof); (S n, Builder.buildInterior)]) in
  Builder.constructHouse (S (S n))
    (Builder.mkWorld
       (h ++ [Builder.House None None None None; Builder.builder_object brick n;
              Builder.ConstructionDirector (S n)]) l) = Some w3
  ∧ Builder.getHouse (S n) w3 = Some n
  ∧ Builder.House_toString (Builder.heap w3) n =
      Some ("House built with " +:+
            "foundation='" +:+ Builder.material brick Builder.buildFoundation +:+ "'" +:+
            ", structure='" +:+ Builder.material brick Builder.buildStructure +:+ "'" +:+
            ", roof='" +:+ Builder.material brick Builder.buildRoof +:+ "'" +:+
            ", interior='" +:+ Builder.material brick Builder.buildInterior +:+ "'").
Proof.
  intros n full w3.
  set (w2 := Builder.mkWorld
               (h ++ [Builder.House None None None None; Builder.builder_object brick n;
                      Builder.ConstructionDirector (S n)]) l).
  assert (Hh : Builder.heap w2 !! n = Some (Builder.House None None None None)).
  { unfold w2, n. simpl. rewrite lookup_app_r by lia. by rewrite Nat.sub_diag. }
  assert (Hb : Builder.heap w2 !! S n = Some (Builder.builder_object brick n)).
  { unfold w2, n. simpl. rewrite lookup_app_r by lia.
    by replace (S (length h) - length h) with 1 by lia. }
  assert (Hd : Builder.heap w2 !! S (S n) = Some (Builder.ConstructionDirector (S n))).
  { unfold w2, n. simpl. rewrite lookup_app_r by lia.
    by replace (S (S (length h)) - length h) with 2 by lia. }
  assert (Hins : <[n := full]> (Builder.heap w2) = Builder.heap w3).
  { unfold w2, w3, n. simpl. rewrite insert_app_r_alt by lia. by rewrite Nat.sub_diag. }
  split_and!.
  - rewrite (Builder_constructHouse_invokes w2 _ _ Hd).
    rewrite (Builder_invokes_spec brick (S n) n _ w2 _ _ _ _ Hb Hh).
    f_equal. unfold w3. f_equal. exact Hins.
  - unfold Builder.getHouse, w3, n. simpl. rewrite lookup_app_r by lia.
    replace (S (length h) - length h) with 1 by lia. by destruct brick.
  - unfold Builder.House_toString, w3, n. simpl. rewrite lookup_app_r by lia.
    by rewrite Nat.sub_diag.
Qed.

(** X9. The program of [BuilderPatternDemo.main], started in any store
    and with any console: it never fails; it prints two lines, the
    description of the complete wooden house and then that of the
    complete brick house; it appends six objects, a house, its builder
    and a director for each of the two, and leaves the objects that were
    there as they were; the wooden house is not touched by the building
    of the brick one; each builder was asked for its four parts, in
    order. *)
Theorem Builder_demo_in_any_store (w : Builder.world) (console : list string) :
  let n := length (Builder.heap w) in
  Builder.BuilderPatternDemo_main w console =
    Some (console ++
            ["Wooden House:
House built with foundation='Wooden Piles', structure='Wood and Bamboo', roof='Wooden Shingles', interior='Wooden Panels'";
             "
Brick House:
House built with foundation='Concrete and Steel', structure='Brick and Mortar', roof='Concrete Slabs', interior='Plastered Walls'"],
          Builder.mkWorld
            (Builder.heap w ++
               [Builder.House (Some "Wooden Piles") (Some "Wood and Bamboo")
                  (Some "Wooden Shingles") (Some "Wooden Panels");
                Builder.WoodenHouseBuilder n;
                Builder.ConstructionDirector (S n);
                Builder.House (Some "Concrete and Steel") (Some "Brick and Mortar")
                  (Some "Concrete Slabs") (Some "Plastered Walls");
                Builder.BrickHouseBuilder (n + 3);
                Builder.ConstructionDirector (n + 4)])
            (Builder.invoked w ++
               [(S n, Builder.buildFoundation); (S n, Builder.buildStructure);
                (S n, Builder.buildRoof); (S n, Builder.buildInterior);
                (n + 4, Builder.buildFoundation); (n + 4, Builder.buildStructure);
                (n + 4, Builder.buildRoof); (n + 4, Builder.buildInterior)])).
Proof.
  intros n. destruct w as [h l]. cbn [Builder.heap Builder.invoked] in *.
  unfold Builder.BuilderPatternDemo_main.
  rewrite Builder_new_wooden_spec. cbv beta iota zeta.
  rewrite Builder_new_director_spec. cbv beta iota zeta.
  destruct (Builder_segment false h l) as (Hc1 & Hg1 & Ht1).
  cbn [Builder.builder_object] in Hc1, Hg1, Ht1.
  rewrite Hc1. cbn [mbind option_bind]. rewrite Hg1. cbn [mbind option_bind].
  rewrite Ht1. cbn [mbind option_bind Builder.heap Builder.invoked].
  rewrite Builder_new_brick_spec. cbv beta iota zeta.
  rewrite Builder_new_director_spec. cbv beta iota zeta.
  match goal with
  | |- context [Builder.constructHouse _ (Builder.mkWorld (?h1 ++ _) ?l1)] =>
      destruct (Builder_segment true h1 l1) as (Hc2 & Hg2 & Ht2)
  end.
  cbn [Builder.builder_object] in Hc2, Hg2, Ht2.
  rewrite Hc2. cbn [mbind option_bind]. rewrite Hg2. cbn [mbind option_bind].
  rewrite Ht2. cbn [mbind option_bind].
  rewrite !length_app. cbn [length].
  replace (length h + 3) with (n + 3) by done.
  replace (S (n + 3)) with (n + 4) by lia.
  rewrite <-!app_assoc. reflexivity.
Qed.

(** ** State: the player as a function of its history *)

Lemma StatePattern_execs_snoc (os : list StatePattern.op) (o : StatePattern.op)
    (w : StatePattern.world) :
  StatePattern.execs (os ++ [o]) w = StatePattern.exec o (StatePattern.execs os w).
Proof. unfold StatePattern.execs. by rewrite foldl_snoc. Qed.

Lemma StatePattern_exec_transition (o : StatePattern.op) (w : StatePattern.world) :
  StatePattern.currentState (StatePattern.exec o w).1 =
    StatePattern.transition o (StatePattern.currentState w.1)
  ∧ (StatePattern.exec o w).2 =
      w.2 ++ [StatePattern.message o (StatePattern.currentState w.1)].
Proof. destruct w as [[s] c]. by destruct o, s. Qed.

(** A history that ends with an operation followed by pauses, cut at its
    last operation. *)
Lemma StatePattern_snoc_decomp (os pre : list StatePattern.op) (o x : StatePattern.op)
    (n : nat) :
  os ++ [o] = pre ++ x :: replicate n StatePattern.Pause →
  (n = 0 ∧ os = pre ∧ o = x) ∨
  (∃ n', n = S n' ∧ o = StatePattern.Pause ∧
         os = pre ++ x :: replicate n' StatePattern.Pause).
Proof.
  destruct n as [|n]; intros Heq.
  - left. simpl in Heq. apply app_inj_tail in Heq as [-> ->]. done.
  - right. exists n. rewrite replicate_S_end in Heq.
    change (pre ++ x :: replicate n StatePattern.Pause ++ [StatePattern.Pause])
      with (pre ++ (x :: replicate n StatePattern.Pause) ++ [StatePattern.Pause]) in Heq.
    rewrite app_assoc in Heq. apply app_inj_tail in Heq as [-> ->]. done.
Qed.

(** X10. Every operation prints exactly one line, and doing an operation
    a second time in a row leaves the player in the state the first one
    left it in. *)
Theorem StatePattern_one_line_and_idempotent
    (os : list StatePattern.op) (o : StatePattern.op) (w : StatePattern.world) :
  length (StatePattern.execs os w).2 = length w.2 + length os
  ∧ StatePattern.currentState (StatePattern.exec o (StatePattern.exec o w)).1 =
      StatePattern.currentState (StatePattern.exec o w).1
  ∧ StatePattern.currentState (StatePattern.execs (os ++ [o; o]) w).1 =
      StatePattern.currentState (StatePattern.execs (os ++ [o]) w).1.
Proof.
  assert (Hidem : ∀ w', StatePattern.currentState
                          (StatePattern.exec o (StatePattern.exec o w')).1 =
                        StatePattern.currentState (StatePattern.exec o w').1).
  { intros [[s] c]. by destruct o, s. }
  split_and!.
  - revert w. induction os as [|o' os IH] using rev_ind; intros w.
    + simpl. lia.
    + rewrite StatePattern_execs_snoc.
      destruct (StatePattern_exec_transition o' (StatePattern.execs os w)) as [_ ->].
      rewrite !length_app, IH. simpl. lia.
  - apply Hidem.
  - change (os ++ [o; o]) with (os ++ [o] ++ [o]). rewrite app_assoc.
    rewrite !StatePattern_execs_snoc. apply Hidem.
Qed.

(** X11. The state of a new player after any history of operations: it is
    playing exactly when the last operation was [play]; paused exactly
    when the history ends with a [play] followed by one or more [pause];
    stopped exactly when the history holds nothing but [pause], or ends
    with a [stop] followed by any number of [pause]. *)
Theorem StatePattern_state_of_history (os : list StatePattern.op) (console : list string) :
  let final := StatePattern.currentState
                 (StatePattern.execs os (StatePattern.new_MediaPlayer, console)).1 in
  (final = StatePattern.PlayingState ↔ last os = Some StatePattern.Play)
  ∧ (final = StatePattern.PausedState ↔
     ∃ pre n, os = pre ++ StatePattern.Play :: replicate (S n) StatePattern.Pause)
  ∧ (final = StatePattern.StoppedState ↔
     Forall (λ o, o = StatePattern.Pause) os ∨
     ∃ pre n, os = pre ++ StatePattern.Stop :: replicate n StatePattern.Pause).
Proof.
  induction os as [|o os IH] using rev_ind; intros final.
  { subst final. simpl. split_and!.
    - split; intros H; discriminate H.
    - split; [intros H; discriminate H|].
      intros (pre & n & Heq). by destruct pre.
    - split; [intros _; left; constructor|done]. }
  destruct IH as (IH1 & IH2 & IH3).
  assert (Hfinal : final = StatePattern.transition o
            (StatePattern.currentState
               (StatePattern.execs os (StatePattern.new_MediaPlayer, console)).1)).
  { subst final. rewrite StatePattern_execs_snoc.
    apply StatePattern_exec_transition. }
  clearbody final.
  set (st := StatePattern.currentState
               (StatePattern.execs os (StatePattern.new_MediaPlayer, console)).1) in *.
  clearbody st. rewrite last_snoc.
  assert (Hno_play : ∀ x pre n, x ≠ o → o ≠ StatePattern.Pause →
            os ++ [o] = pre ++ x :: replicate n StatePattern.Pause → False).
  { intros x pre n Hx Ho Heq.
    apply StatePattern_snoc_decomp in Heq as [(_ & _ & ->)|(n' & _ & -> & _)]; done. }
  destruct o.
  - (* play *)
    simpl in Hfinal. subst final. split_and!.
    + done.
    + split; [intros H; discriminate H|].
      intros (pre & n & Heq).
      apply StatePattern_snoc_decomp in Heq as [(Hn & _)|(n' & _ & Ho & _)]; done.
    + split; [intros H; discriminate H|].
      intros [Hall|(pre & n & Heq)].
      * apply Forall_app in Hall as [_ Hall].
        pose proof (Forall_inv Hall) as Hx. simpl in Hx. discriminate Hx.
      * exfalso. by eapply (Hno_play StatePattern.Stop).
  - (* pause *)
    destruct st; simpl in Hfinal; subst final.
    + (* was playing: now paused *)
      split_and!.
      * split; intros H; discriminate H.
      * split; [intros _|done].
        destruct IH1 as [IH1 _]. specialize (IH1 eq_refl).
        apply last_Some in IH1 as [pre ->]. exists pre, 0. by rewrite <-app_assoc.
      * split; [intros H; discriminate H|].
        intros [Hall|(pre & n & Heq)].
        -- apply Forall_app in Hall as [Hall _].
           destruct IH3 as [_ IH3]. by specialize (IH3 (or_introl Hall)).
        -- apply StatePattern_snoc_decomp in Heq as [(_ & _ & Ho)|(n' & _ & _ & ->)];
             [done|].
           destruct IH3 as [_ IH3].
           by specialize (IH3 (or_intror (ex_intro _ pre (ex_intro _ n' eq_refl)))).
    + (* was paused: still paused *)
      split_and!.
      * split; intros H; discriminate H.
      * split; [intros _|done].
        destruct IH2 as [IH2 _]. destruct (IH2 eq_refl) as (pre & n & ->).
        exists pre, (S n). rewrite (replicate_S_end (S n)).
        by rewrite <-app_assoc.
      * split; [intros H; discriminate H|].
        intros [Hall|(pre & n & Heq)].
        -- apply Forall_app in Hall as [Hall _].
           destruct IH3 as [_ IH3]. by specialize (IH3 (or_introl Hall)).
        -- apply StatePattern_snoc_decomp in Heq as [(_ & _ & Ho)|(n' & _ & _ & ->)];
             [done|].
           destruct IH3 as [_ IH3].
           by specialize (IH3 (or_intror (ex_intro _ pre (ex_intro _ n' eq_refl)))).
    + (* was stopped: still stopped *)
      split_and!.
      * split; intros H; discriminate H.
      * split; [intros H; discriminate H|].
        intros (pre & n & Heq).
        apply StatePattern_snoc_decomp in Heq as [(Hn & _)|(n' & Hn & _ & ->)]; [done|].
        destruct n' as [|n'].
        -- destruct IH1 as [_ IH1]. simpl in IH1. rewrite last_snoc in IH1.
           by specialize (IH1 eq_refl).
        -- destruct IH2 as [_ IH2].
           by specialize (IH2 (ex_intro _ pre (ex_intro _ n' eq_refl))).
      * split; [intros _|done].
        destruct IH3 as [IH3 _]. destruct (IH3 eq_refl) as [Hall|(pre & n & ->)].
        -- left. apply Forall_app. split; [done|]. by apply Forall_singleton.
        -- right. exists pre, (S n). rewrite (replicate_S_end n).
           by rewrite <-app_assoc.
  - (* stop *)
    simpl in Hfinal. subst final. split_and!.
    + split; intros H; discriminate H.
    + split; [intros H; discriminate H|].
      intros (pre & n & Heq).
      apply StatePattern_snoc_decomp in Heq as [(Hn & _)|(n' & _ & Ho & _)]; done.
    + split; [intros _|done]. right. by exists os, 0.
Qed.

(** ** Chain of responsibility: chains of any length and shape *)

(** One step of [handleRequest] on a handler of class [c] whose [next]
    is [nx]. *)
Lemma Chain_handleRequest_step (fuel : nat) (this : ref) (request : string)
    (w : ChainOfResponsibility.world) (c : ChainOfResponsibility.class)
    (nx : option ref) :
  ChainOfResponsibility.heap w !! this = Some (ChainOfResponsibility.mkHandler c nx) →
  let w1 := ChainOfResponsibility.mkWorld
              (ChainOfResponsibility.heap w) (ChainOfResponsibility.console w)
              (ChainOfResponsibility.handled w ++ [(this, request)]) in
  ChainOfResponsibility.handleRequest (S fuel) this request w =
    if decide (request = ChainOfResponsibility.keyword c) then
      Some (ChainOfResponsibility.println (ChainOfResponsibility.resolving c) w1)
    else match nx with
         | Some n => ChainOfResponsibility.handleRequest fuel n request w1
         | None => Some (ChainOfResponsibility.println (ChainOfResponsibility.unable c) w1)
         end.
Proof.
  intros Hthis w1. cbn [ChainOfResponsibility.handleRequest]. rewrite Hthis.
  cbn [mbind option_bind ChainOfResponsibility.cls ChainOfResponsibility.next].
  by destruct c.
Qed.

(** X12. A chain of any length, laid out in a store with the last
    handler's [next] left [null]: a request handed to the first handler
    is answered within as many steps as the chain has handlers; it goes
    through the handlers in chain order up to the first one whose keyword
    it is, or through all of them when there is none; exactly one line is
    printed, by the handler it stops at; the store is unchanged. *)
Theorem Chain_linear_chain (chain : list (ref * ChainOfResponsibility.class))
    (request : string) (k : nat) (w : ChainOfResponsibility.world)
    (a : ref) (c : ChainOfResponsibility.class) :
  head chain = Some (a, c) →
  ChainOfResponsibility.linked (ChainOfResponsibility.heap w) chain →
  ChainOfResponsibility.handleRequest (length chain + k) a request w =
    Some (ChainOfResponsibility.mkWorld
            (ChainOfResponsibility.heap w)
            (ChainOfResponsibility.console w ++
               (ChainOfResponsibility.stops chain request).2)
            (ChainOfResponsibility.handled w ++
               map (λ r, (r, request)) (ChainOfResponsibility.stops chain request).1))
  ∧ length (ChainOfResponsibility.stops chain request).2 = 1
  ∧ (ChainOfResponsibility.stops chain request).1 `prefix_of` chain.*1.
Proof.
  revert w a c. induction chain as [|[r c0] rest IH]; intros w a c Hhead Hlinked;
    [done|].
  simpl in Hhead. simplify_eq. destruct Hlinked as [Hthis Hrest].
  cbn [length Nat.add].
  rewrite (Chain_handleRequest_step _ a request w c _ Hthis).
  cbn [ChainOfResponsibility.stops].
  destruct (decide (request = ChainOfResponsibility.keyword c)) as [Hkey|Hkey].
  { split_and!; [done|done|]. simpl. apply prefix_cons, prefix_nil. }
  destruct rest as [|[r' c'] rest'].
  { split_and!; [done|done|]. simpl. apply prefix_cons, prefix_nil. }
  cbn [head fmap option_fmap option_map fst].
  set (w1 := ChainOfResponsibility.mkWorld
               (ChainOfResponsibility.heap w) (ChainOfResponsibility.console w)
               (ChainOfResponsibility.handled w ++ [(a, request)])).
  destruct (IH w1 r' c' eq_refl Hrest) as (Hrun & Hone & Hpre).
  rewrite Hrun.
  destruct (ChainOfResponsibility.stops ((r', c') :: rest') request) as [rs line] eqn:Hstops.
  simpl in *. split_and!.
  - by rewrite <-app_assoc.
  - done.
  - by apply prefix_cons.
Qed.

Lemma Chain_linear_chain_witness :
  let chain := [(1, ChainOfResponsibility.SupervisorHandler);
                (0, ChainOfResponsibility.AutomatedHandler)] in
  let w := ChainOfResponsibility.mkWorld
             [ChainOfResponsibility.mkHandler ChainOfResponsibility.AutomatedHandler None;
              ChainOfResponsibility.mkHandler ChainOfResponsibility.SupervisorHandler
                (Some 0)] [] [] in
  (head chain = Some (1, ChainOfResponsibility.SupervisorHandler) ∧
   ChainOfResponsibility.linked (ChainOfResponsibility.heap w) chain) ∧
  ChainOfResponsibility.handleRequest (length chain + 0) 1 "basic" w =
    Some (ChainOfResponsibility.mkWorld
            (ChainOfResponsibility.heap w)
            ["AutomatedHandler: Resolving basic request."]
            [(1, "basic"); (0, "basic")])
  ∧ length (ChainOfResponsibility.stops chain "basic").2 = 1
  ∧ (ChainOfResponsibility.stops chain "basic").1 `prefix_of` chain.*1.
Proof.
  intros chain w.
  assert (Hlinked : ChainOfResponsibility.linked (ChainOfResponsibility.heap w) chain).
  { simpl. by split_and!. }
  split; [by split|].
  exact (Chain_linear_chain chain "basic" 0 w 1 ChainOfResponsibility.SupervisorHandler
           eq_refl Hlinked).
Defined.

(** X13. When every handler of the store has a [next] (as after a
    [setNext] that closes the chain into a cycle), a request that is no
    handler's keyword is passed on for ever: [handleRequest] does not
    return, however much fuel it is given. *)
Theorem Chain_closed_chain_never_answers (w : ChainOfResponsibility.world)
    (request : string) (fuel : nat) (this : ref) :
  (∀ r o, ChainOfResponsibility.heap w !! r = Some o →
          is_Some (ChainOfResponsibility.next o)) →
  (∀ c, request ≠ ChainOfResponsibility.keyword c) →
  ChainOfResponsibility.handleRequest fuel this request w = None.
Proof.
  intros Hclosed Hkey. revert w this Hclosed.
  induction fuel as [|fuel IH]; intros w this Hclosed; [done|].
  destruct (ChainOfResponsibility.heap w !! this) as [[c nx]|] eqn:Hthis.
  - rewrite (Chain_handleRequest_step fuel this request w c nx Hthis).
    rewrite decide_False by apply Hkey.
    destruct (Hclosed this _ Hthis) as [n Hn]. simpl in Hn. subst nx.
    by apply IH.
  - cbn [ChainOfResponsibility.handleRequest]. by rewrite Hthis.
Qed.

Lemma Chain_closed_chain_never_answers_witness :
  let w := ChainOfResponsibility.mkWorld
             [ChainOfResponsibility.mkHandler ChainOfResponsibility.AutomatedHandler (Some 1);
              ChainOfResponsibility.mkHandler ChainOfResponsibility.AgentHandler (Some 0)]
             [] [] in
  ((∀ r o, ChainOfResponsibility.heap w !! r = Some o →
           is_Some (ChainOfResponsibility.next o)) ∧
   (∀ c, "unknown" ≠ ChainOfResponsibility.keyword c)) ∧
  ChainOfResponsibility.handleRequest 1000 0 "unknown" w = None.
Proof.
  intros w.
  assert (Hclosed : ∀ r o, ChainOfResponsibility.heap w !! r = Some o →
                           is_Some (ChainOfResponsibility.next o)).
  { intros [|[|r]] o Ho; simpl in Ho; [| |done]; injection Ho as <-; by eexists. }
  assert (Hkey : ∀ c, "unknown" ≠ ChainOfResponsibility.keyword c)
    by (intros []; discriminate).
  split; [by split|].
  exact (Chain_closed_chain_never_answers w "unknown" 1000 0 Hclosed Hkey).
Defined.

(** X14. Whatever the shape of the chain, a call of [handleRequest] that
    returns has left the store as it was, has printed exactly one line,
    and has gone through at most as many handlers as it had fuel,
    starting with the receiver and passing the request on unchanged;
    with more fuel the result is the same. *)
Theorem Chain_answer_is_one_line (fuel : nat) (this : ref) (request : string)
    (w w' : ChainOfResponsibility.world) :
  ChainOfResponsibility.handleRequest fuel this request w = Some w' →
  ChainOfResponsibility.heap w' = ChainOfResponsibility.heap w
  ∧ (∃ line, ChainOfResponsibility.console w' = ChainOfResponsibility.console w ++ [line])
  ∧ (∃ rs, ChainOfResponsibility.handled w' =
             ChainOfResponsibility.handled w ++ map (λ r, (r, request)) (this :: rs)
           ∧ S (length rs) ≤ fuel)
  ∧ ∀ k, ChainOfResponsibility.handleRequest (fuel + k) this request w = Some w'.
Proof.
  revert this w. induction fuel as [|fuel IH]; intros this w Hrun; [done|].
  destruct (ChainOfResponsibility.heap w !! this) as [[c nx]|] eqn:Hthis;
    [|cbn [ChainOfResponsibility.handleRequest] in Hrun; by rewrite Hthis in Hrun].
  assert (Hmore : ∀ k, ChainOfResponsibility.handleRequest (S fuel + k) this request w =
    if decide (request = ChainOfResponsibility.keyword c) then
      Some (ChainOfResponsibility.println (ChainOfResponsibility.resolving c)
              (ChainOfResponsibility.mkWorld
                 (ChainOfResponsibility.heap w) (ChainOfResponsibility.console w)
                 (ChainOfResponsibility.handled w ++ [(this, request)])))
    else match nx with
         | Some n => ChainOfResponsibility.handleRequest (fuel + k) n request
              (ChainOfResponsibility.mkWorld
                 (ChainOfResponsibility.heap w) (ChainOfResponsibility.console w)
                 (ChainOfResponsibility.handled w ++ [(this, request)]))
         | None => Some (ChainOfResponsibility.println (ChainOfResponsibility.unable c)
              (ChainOfResponsibility.mkWorld
                 (ChainOfResponsibility.heap w) (ChainOfResponsibility.console w)
                 (ChainOfResponsibility.handled w ++ [(this, request)])))
         end).
  { intros k. change (S fuel + k) with (S (fuel + k)).
    by rewrite (Chain_handleRequest_step (fuel + k) this request w c nx Hthis). }
  rewrite (Chain_handleRequest_step fuel this request w c nx Hthis) in Hrun.
  setoid_rewrite Hmore.
  destruct (decide (request = ChainOfResponsibility.keyword c)) as [Hkey|Hkey].
  { simplify_eq. simpl. split_and!; [done|by eexists| |done].
    exists []. split; [done|simpl; lia]. }
  destruct nx as [n|].
  - destruct (IH n _ Hrun) as (Hheap & [line Hline] & (rs & Hlog & Hlen) & Hk).
    simpl in *. split_and!; [done|by exists line| |done].
    exists (n :: rs). split; [|simpl; lia].
    rewrite Hlog. by rewrite <-app_assoc.
  - simplify_eq. simpl. split_and!; [done|by eexists| |done].
    exists []. split; [done|simpl; lia].
Qed.

Lemma Chain_answer_is_one_line_witness :
  let w := ChainOfResponsibility.mkWorld
             [ChainOfResponsibility.mkHandler ChainOfResponsibility.AutomatedHandler (Some 1);
              ChainOfResponsibility.mkHandler ChainOfResponsibility.AgentHandler (Some 0)]
             ["before"] [] in
  let w' := ChainOfResponsibility.mkWorld (ChainOfResponsibility.heap w)
              ["before"; "AgentHandler: Resolving intermediate request."]
              [(0, "intermediate"); (1, "intermediate")] in
  ChainOfResponsibility.handleRequest 2 0 "intermediate" w = Some w' ∧
  (ChainOfResponsibility.heap w' = ChainOfResponsibility.heap w
   ∧ (∃ line, ChainOfResponsibility.console w' = ChainOfResponsibility.console w ++ [line])
   ∧ (∃ rs, ChainOfResponsibility.handled w' =
              ChainOfResponsibility.handled w ++ map (λ r, (r, "intermediate")) (0 :: rs)
            ∧ S (length rs) ≤ 2)
   ∧ ∀ k, ChainOfResponsibility.handleRequest (2 + k) 0 "intermediate" w = Some w').
Proof.
  intros w w'. split; [reflexivity|].
  exact (Chain_answer_is_one_line 2 0 "intermediate" w w' eq_refl).
Defined.

(** ** Flyweight: what a run of requests costs *)

Lemma Flyweight_wf_miss (w : Flyweight.world) :
  Flyweight.wf w → Flyweight.flyweights w !! length (Flyweight.heap w) = None.
Proof.
  intros Hwf.
  destruct (Flyweight.flyweights w !! length (Flyweight.heap w)) eqn:Hk; [|done].
  assert (length (Flyweight.heap w) < length (Flyweight.heap w)); [|lia].
  apply Hwf. by rewrite Hk.
Qed.

(** X15. In a factory whose keys are objects of the store (a new factory
    is one), a run of [getCharacter] calls returns as many different
    objects as there are calls, whatever the arguments: the calls return
    the next free references in order, each object has the value, size
    and font asked for, and the map grows by one entry per call. *)
Theorem Flyweight_one_object_per_call (requests : list (Z * Z * string))
    (w : Flyweight.world) :
  Flyweight.wf w →
  (Flyweight.getCharacters requests w).1 =
    map Some (seq (length (Flyweight.heap w)) (length requests))
  ∧ NoDup (Flyweight.getCharacters requests w).1
  ∧ Flyweight.heap (Flyweight.getCharacters requests w).2 =
      Flyweight.heap w ++
        map (λ q, Flyweight.mkCharacter q.1.1 q.1.2 q.2) requests
  ∧ size (Flyweight.flyweights (Flyweight.getCharacters requests w).2) =
      size (Flyweight.flyweights w) + length requests
  ∧ Flyweight.wf (Flyweight.getCharacters requests w).2.
Proof.
  intros Hwf.
  assert (Hmain :
    (Flyweight.getCharacters requests w).1 =
      map Some (seq (length (Flyweight.heap w)) (length requests))
    ∧ Flyweight.heap (Flyweight.getCharacters requests w).2 =
        Flyweight.heap w ++
          map (λ q, Flyweight.mkCharacter q.1.1 q.1.2 q.2) requests
    ∧ size (Flyweight.flyweights (Flyweight.getCharacters requests w).2) =
        size (Flyweight.flyweights w) + length requests
    ∧ Flyweight.wf (Flyweight.getCharacters requests w).2).
  { revert w Hwf. induction requests as [|[[value size] font] requests IH]; intros w Hwf.
    - simpl. rewrite app_nil_r. split_and!; [done|done|lia|done].
    - destruct (Flyweight_getCharacter_always_new value size font w Hwf) as [Hcall Hwf1].
      cbn [Flyweight.getCharacters]. rewrite Hcall in Hwf1 |- *.
      cbn [snd] in Hwf1.
      set (w1 := Flyweight.mkWorld
                   (Flyweight.heap w ++ [Flyweight.mkCharacter value size font])
                   (<[length (Flyweight.heap w) := length (Flyweight.heap w)]>
                      (Flyweight.flyweights w))) in *.
      destruct (IH w1 Hwf1) as (Hrefs & Hheap & Hsize & Hwf').
      destruct (Flyweight.getCharacters requests w1) as [cs w2]. simpl in *.
      split_and!.
      + rewrite Hrefs. rewrite length_app. simpl.
        by replace (length (Flyweight.heap w) + 1) with (S (length (Flyweight.heap w)))
          by lia.
      + rewrite Hheap. by rewrite <-app_assoc.
      + rewrite Hsize. rewrite map_size_insert_None by by apply Flyweight_wf_miss. lia.
      + done. }
  destruct Hmain as (Hrefs & Hheap & Hsize & Hwf').
  split_and!; [done| |done|done|done].
  rewrite Hrefs. apply (NoDup_fmap_2 Some), NoDup_seq.
Qed.

Lemma Flyweight_one_object_per_call_witness :
  let requests := [(97, 12, "Arial"); (97, 12, "Arial"); (98, 12, "Arial")]%Z in
  let w := Flyweight.new_FlyweightFactory [] in
  Flyweight.wf w ∧
  ((Flyweight.getCharacters requests w).1 =
     map Some (seq (length (Flyweight.heap w)) (length requests))
   ∧ NoDup (Flyweight.getCharacters requests w).1
   ∧ Flyweight.heap (Flyweight.getCharacters requests w).2 =
       Flyweight.heap w ++
         map (λ q, Flyweight.mkCharacter q.1.1 q.1.2 q.2) requests
   ∧ size (Flyweight.flyweights (Flyweight.getCharacters requests w).2) =
       size (Flyweight.flyweights w) + length requests
   ∧ Flyweight.wf (Flyweight.getCharacters requests w).2).
Proof.
  intros requests w.
  assert (Hwf : Flyweight.wf w).
  { intros k [v Hk]. simpl in Hk. by rewrite lookup_empty in Hk. }
  split; [exact Hwf|].
  exact (Flyweight_one_object_per_call requests w Hwf).
Defined.
